(** * playwright-auth-screenshot: the authentication engine

    A shallow embedding of [src/auth.ts] (selector resolution, the login
    flow and success detection), of the preset table [src/presets.ts] and
    of the [AuthConfig] / [AuthPreset] interfaces of [src/types.ts].

    Conventions of the embedding.
    - An optional property ([preset?: string]) and the runtime value
      [undefined] are an [option]; [None] is [undefined].
    - A JavaScript string is a [string]; the falsy strings are [undefined]
      and the empty string.
    - The Playwright page is an oracle [drive] that settles each call; the
      engine's calls are recorded in order, with their outcomes. *)

From Stdlib Require Import ZArith Ascii String.
From Stdlib.Strings Require Import Byte.
From stdpp Require Import gmap strings list.

(** ** JavaScript operators on optional strings and booleans *)

(** [truthy s]: the value is neither [undefined] nor the empty string. *)
Definition truthy (s : option string) : bool :=
  match s with
  | Some (String _ _) => true
  | _ => false
  end.

(** [a || b] on strings. *)
Definition js_or (a b : option string) : option string :=
  if truthy a then a else b.

(** [a ?? b]: only [undefined] gives way to [b]. *)
Definition js_nullish {A : Type} (a b : option A) : option A :=
  match a with
  | Some _ => a
  | None => b
  end.

Infix "|||" := js_or (at level 50, left associativity).
Infix "???" := js_nullish (at level 50, left associativity).

(** ** Data model (types.ts) *)

Module AuthConfig.
Record t := mk {
  loginUrl : string;
  email : string;
  password : string;
  preset : option string;
  emailSelector : option string;
  passwordSelector : option string;
  submitSelector : option string;
  successUrlPattern : option string;
  successSelector : option string;
  multiStep : option bool;
  continueSelector : option string
}.
End AuthConfig.

Module AuthPreset.
Record t := mk {
  loginPath : string;
  emailSelector : string;
  passwordSelector : string;
  submitSelector : string;
  successUrlPattern : string;
  multiStep : bool;
  continueSelector : option string
}.
End AuthPreset.

(** The object literal returned by [resolveSelectors].  Its declared type
    makes the first four fields strings; at run time each is whatever the
    [||] chain produced, so every field is optional here. *)
Module Resolved.
Record t := mk {
  emailSelector : option string;
  passwordSelector : option string;
  submitSelector : option string;
  successUrlPattern : option string;
  successSelector : option string;
  multiStep : option bool;
  continueSelector : option string
}.
End Resolved.

(** ** The preset table (presets.ts) *)

(** The double-quote character, for the attribute selectors. *)
Definition dq : string := String "034"%char EmptyString.

Definition attr (tag name value : string) : string :=
  tag +:+ "[" +:+ name +:+ "=" +:+ dq +:+ value +:+ dq +:+ "]".

Definition supabase : AuthPreset.t :=
  {| AuthPreset.loginPath := "/auth/login";
     AuthPreset.emailSelector := attr "input" "type" "email" +:+ ", input#email";
     AuthPreset.passwordSelector :=
       attr "input" "type" "password" +:+ ", input#password";
     AuthPreset.submitSelector := attr "button" "type" "submit";
     AuthPreset.successUrlPattern := "/";
     AuthPreset.multiStep := false;
     AuthPreset.continueSelector := None |}.

Definition clerk : AuthPreset.t :=
  {| AuthPreset.loginPath := "/sign-in";
     AuthPreset.emailSelector :=
       attr "input" "name" "identifier" +:+ ", input#identifier-field";
     AuthPreset.passwordSelector :=
       attr "input" "name" "password" +:+ ", input#password-field";
     AuthPreset.submitSelector :=
       attr "button" "type" "submit" +:+ ", button.cl-formButtonPrimary";
     AuthPreset.successUrlPattern := "/";
     AuthPreset.multiStep := true;
     AuthPreset.continueSelector := Some (attr "button" "type" "submit") |}.

Definition salesforce : AuthPreset.t :=
  {| AuthPreset.loginPath := "/login";
     AuthPreset.emailSelector := "input#username";
     AuthPreset.passwordSelector := "input#password";
     AuthPreset.submitSelector := "input#Login";
     AuthPreset.successUrlPattern := "/home";
     AuthPreset.multiStep := false;
     AuthPreset.continueSelector := None |}.

Definition generic : AuthPreset.t :=
  {| AuthPreset.loginPath := "/login";
     AuthPreset.emailSelector :=
       attr "input" "type" "email" +:+ ", " +:+ attr "input" "name" "email";
     AuthPreset.passwordSelector :=
       attr "input" "type" "password" +:+ ", "
       +:+ attr "input" "name" "password";
     AuthPreset.submitSelector := attr "button" "type" "submit";
     AuthPreset.successUrlPattern := "/";
     AuthPreset.multiStep := false;
     AuthPreset.continueSelector := None |}.

(** The own properties of the [PRESETS] object. *)
Definition PRESETS : gmap string AuthPreset.t :=
  <["supabase" := supabase]>
    (<["clerk" := clerk]>
       (<["salesforce" := salesforce]>
          (<["generic" := generic]> ∅))).

(** [PRESETS] is written as an object literal, so its prototype is
    [Object.prototype]: a property read with a key that is not an own
    property continues there.  These are the names that object defines. *)
Definition Object_prototype : list string :=
  [ "constructor"; "__defineGetter__"; "__defineSetter__"; "hasOwnProperty";
    "__lookupGetter__"; "__lookupSetter__"; "isPrototypeOf";
    "propertyIsEnumerable"; "toString"; "valueOf"; "__proto__";
    "toLocaleString" ].

(** What a read [PRESETS[key]] can produce besides [undefined]: one of the
    table's rows, or a member inherited from [Object.prototype] (a built-in
    function, or for [__proto__] the prototype object itself). *)
Inductive PresetValue :=
| Own (p : AuthPreset.t)
| Inherited (key : string).

(** [PRESETS[key]]. *)
Definition PRESETS_get (key : string) : option PresetValue :=
  match PRESETS !! key with
  | Some p => Some (Own p)
  | None =>
      if bool_decide (key ∈ Object_prototype) then Some (Inherited key)
      else None
  end.

(** Property reads [preset.<field>].  None of the inherited members has one
    of the preset fields, so such a read is [undefined]. *)
Module Field.
Definition emailSelector (v : PresetValue) : option string :=
  match v with
  | Own p => Some (AuthPreset.emailSelector p)
  | Inherited _ => None
  end.
Definition passwordSelector (v : PresetValue) : option string :=
  match v with
  | Own p => Some (AuthPreset.passwordSelector p)
  | Inherited _ => None
  end.
Definition submitSelector (v : PresetValue) : option string :=
  match v with
  | Own p => Some (AuthPreset.submitSelector p)
  | Inherited _ => None
  end.
Definition successUrlPattern (v : PresetValue) : option string :=
  match v with
  | Own p => Some (AuthPreset.successUrlPattern p)
  | Inherited _ => None
  end.
Definition multiStep (v : PresetValue) : option bool :=
  match v with
  | Own p => Some (AuthPreset.multiStep p)
  | Inherited _ => None
  end.
Definition continueSelector (v : PresetValue) : option string :=
  match v with
  | Own p => AuthPreset.continueSelector p
  | Inherited _ => None
  end.
End Field.

(** ** Selector resolution (auth.ts, resolveSelectors) *)

(** The key of the read, [auth.preset || 'generic']. *)
Definition presetKey (name : option string) : string :=
  match name with
  | Some (String a s) => String a s
  | _ => "generic"
  end.

(** [PRESETS[auth.preset || 'generic'] || PRESETS.generic].  Every object
    and function is truthy, so only [undefined] gives way to the generic
    row. *)
Definition lookupPreset (name : option string) : PresetValue :=
  match PRESETS_get (presetKey name) with
  | Some v => v
  | None => Own generic
  end.

Definition resolveSelectors (auth : AuthConfig.t) : Resolved.t :=
  let preset := lookupPreset (AuthConfig.preset auth) in
  {| Resolved.emailSelector :=
       AuthConfig.emailSelector auth ||| Field.emailSelector preset;
     Resolved.passwordSelector :=
       AuthConfig.passwordSelector auth ||| Field.passwordSelector preset;
     Resolved.submitSelector :=
       AuthConfig.submitSelector auth ||| Field.submitSelector preset;
     Resolved.successUrlPattern :=
       AuthConfig.successUrlPattern auth ||| Field.successUrlPattern preset;
     Resolved.successSelector := AuthConfig.successSelector auth;
     Resolved.multiStep :=
       AuthConfig.multiStep auth ??? Field.multiStep preset;
     Resolved.continueSelector :=
       AuthConfig.continueSelector auth ||| Field.continueSelector preset |}.

(** ** The success predicate on URLs (auth.ts, waitForLoginSuccess) *)

(** [s.includes(search)]. *)
Fixpoint includes (s search : string) : bool :=
  String.prefix search s ||
  match s with
  | EmptyString => false
  | String _ s' => includes s' search
  end.

(** The part of a [URL] object the engine reads. *)
Record URL := { pathname : string }.

(** The arrow function handed to [page.waitForURL], closed over
    [sel.successUrlPattern]. *)
Definition urlPredicate (successUrlPattern : string) (url : URL) : bool :=
  let pathname := pathname url in
  if String.eqb successUrlPattern "/" then
    negb (includes pathname "/login") &&
    negb (includes pathname "/sign-in") &&
    negb (includes pathname "/auth/")
  else includes pathname successUrlPattern.

(** ** The page driver *)

(** The Playwright calls the engine makes, with the arguments it passes. *)
Inductive Call :=
| goto (url waitUntil : string) (timeout : Z)
| waitForSelector (selector : option string) (timeout : Z)
    (state : option string)
| fill (selector : option string) (value : string)
| click (selector : option string)
| waitForURL (predicate : URL -> bool) (timeout : Z)
| waitForTimeout (ms : Z).

(** How the promise of a call settles. *)
Inductive Outcome := Fulfilled | Rejected.

(** How an [async] function of type [Promise<void>] completes: it returns,
    or the rejection of the awaited call [c] propagates out of it. *)
Inductive Completion := Returned | Threw (c : Call).

Section Engine.
Context {Page : Type}.

(** The page: it settles a call and moves to a new state. *)
Variable drive : Call -> Page -> Outcome * Page.

(** The page together with the calls made so far, oldest first. *)
Record Session := { page : Page; trace : list (Call * Outcome) }.

Definition Async := Session -> Completion * Session.

Definition done_ : Async := fun s => (Returned, s).

(** [await page.<call>(...)]. *)
Definition await (c : Call) : Async := fun s =>
  let r := drive c (page s) in
  let s' := {| page := r.2; trace := trace s ++ [(c, r.1)] |} in
  match r.1 with
  | Fulfilled => (Returned, s')
  | Rejected => (Threw c, s')
  end.

(** Sequencing of statements: an exception skips the rest. *)
Definition andThen (m k : Async) : Async := fun s =>
  match m s with
  | (Returned, s') => k s'
  | (Threw c, s') => (Threw c, s')
  end.

Notation "m >> k" := (andThen m k) (at level 65, right associativity).

Definition waitForLoginSuccess (sel : Resolved.t) : Async :=
  let timeout := 15000%Z in
  if truthy (Resolved.successSelector sel) then
    await (waitForSelector (Resolved.successSelector sel) timeout None)
  else
    match Resolved.successUrlPattern sel with
    | Some (String a p) =>
        await (waitForURL (urlPredicate (String a p)) timeout)
    | _ =>
        (* Fallback: wait for any navigation *)
        await (waitForTimeout 5000)
    end.

Definition authenticate (auth : AuthConfig.t) : Async :=
  let sel := resolveSelectors auth in
  await (goto (AuthConfig.loginUrl auth) "networkidle" 30000) >>
  await (waitForSelector (Resolved.emailSelector sel) 10000 None) >>
  await (fill (Resolved.emailSelector sel) (AuthConfig.email auth)) >>
  (match Resolved.multiStep sel with
   | Some true =>
       let continueBtn :=
         Resolved.continueSelector sel ||| Resolved.submitSelector sel in
       await (click continueBtn) >>
       await (waitForSelector (Resolved.passwordSelector sel) 10000
                (Some "visible"))
   | _ => done_
   end) >>
  await (fill (Resolved.passwordSelector sel) (AuthConfig.password auth)) >>
  await (click (Resolved.submitSelector sel)) >>
  waitForLoginSuccess sel.

(** A fresh page: nothing called yet. *)
Definition start (p : Page) : Session := {| page := p; trace := [] |}.

(** Issuing the calls [cs] in order on page [p], each one only once the
    one before is fulfilled, and stopping at the first rejection, leaves
    the events [tr], the completion [r] and the page [p']. *)
Inductive Runs :
  Page -> list Call -> list (Call * Outcome) -> Completion -> Page -> Prop :=
| Runs_end p : Runs p [] [] Returned p
| Runs_fulfilled p c cs p1 tr r p' :
    drive c p = (Fulfilled, p1) ->
    Runs p1 cs tr r p' ->
    Runs p (c :: cs) ((c, Fulfilled) :: tr) r p'
| Runs_rejected p c cs p' :
    drive c p = (Rejected, p') ->
    Runs p (c :: cs) [(c, Rejected)] (Threw c) p'.

End Engine.

Arguments Session : clear implicits.

(** ** Vocabulary of the statements *)

(** [sub] occurs in [s] as a substring. *)
Definition contains (s sub : string) : Prop :=
  exists a b, s = a +:+ sub +:+ b.

(** The merge rule of one selector field: a non-empty override is the
    result, an absent or empty one leaves the default. *)
Definition merged (override default result : option string) : Prop :=
  (forall s, override = Some s -> s <> EmptyString -> result = Some s) /\
  (override = None \/ override = Some EmptyString -> result = default).

(** A configuration with no override: [{loginUrl, email, password, preset}]. *)
Definition bare (loginUrl email password : string) (preset : option string)
  : AuthConfig.t :=
  {| AuthConfig.loginUrl := loginUrl;
     AuthConfig.email := email;
     AuthConfig.password := password;
     AuthConfig.preset := preset;
     AuthConfig.emailSelector := None;
     AuthConfig.passwordSelector := None;
     AuthConfig.submitSelector := None;
     AuthConfig.successUrlPattern := None;
     AuthConfig.successSelector := None;
     AuthConfig.multiStep := None;
     AuthConfig.continueSelector := None |}.

(** The same configuration under another preset name. *)
Definition withPreset (auth : AuthConfig.t) (name : option string)
  : AuthConfig.t :=
  {| AuthConfig.loginUrl := AuthConfig.loginUrl auth;
     AuthConfig.email := AuthConfig.email auth;
     AuthConfig.password := AuthConfig.password auth;
     AuthConfig.preset := name;
     AuthConfig.emailSelector := AuthConfig.emailSelector auth;
     AuthConfig.passwordSelector := AuthConfig.passwordSelector auth;
     AuthConfig.submitSelector := AuthConfig.submitSelector auth;
     AuthConfig.successUrlPattern := AuthConfig.successUrlPattern auth;
     AuthConfig.successSelector := AuthConfig.successSelector auth;
     AuthConfig.multiStep := AuthConfig.multiStep auth;
     AuthConfig.continueSelector := AuthConfig.continueSelector auth |}.

(** The defaults of a preset, as a resolved bundle. *)
Definition defaults (p : AuthPreset.t) : Resolved.t :=
  {| Resolved.emailSelector := Some (AuthPreset.emailSelector p);
     Resolved.passwordSelector := Some (AuthPreset.passwordSelector p);
     Resolved.submitSelector := Some (AuthPreset.submitSelector p);
     Resolved.successUrlPattern := Some (AuthPreset.successUrlPattern p);
     Resolved.successSelector := None;
     Resolved.multiStep := Some (AuthPreset.multiStep p);
     Resolved.continueSelector := AuthPreset.continueSelector p |}.

(** The one call [waitForLoginSuccess] makes for a bundle. *)
Definition successCall (sel : Resolved.t) : Call :=
  if truthy (Resolved.successSelector sel) then
    waitForSelector (Resolved.successSelector sel) 15000 None
  else
    match Resolved.successUrlPattern sel with
    | Some (String a p) => waitForURL (urlPredicate (String a p)) 15000
    | _ => waitForTimeout 5000
    end.

(** The calls of [authenticate] in program order. *)
Definition flow (auth : AuthConfig.t) : list Call :=
  let sel := resolveSelectors auth in
  [ goto (AuthConfig.loginUrl auth) "networkidle" 30000;
    waitForSelector (Resolved.emailSelector sel) 10000 None;
    fill (Resolved.emailSelector sel) (AuthConfig.email auth) ]
  ++ match Resolved.multiStep sel with
     | Some true =>
         [ click (Resolved.continueSelector sel
                  ||| Resolved.submitSelector sel);
           waitForSelector (Resolved.passwordSelector sel) 10000
             (Some "visible") ]
     | _ => []
     end
  ++ [ fill (Resolved.passwordSelector sel) (AuthConfig.password auth);
       click (Resolved.submitSelector sel);
       successCall sel ].

(** The function [m] issues the calls [cs], in the sense of [Runs], after
    whatever the session already holds. *)
Definition issues {Page : Type} (drive : Call -> Page -> Outcome * Page)
    (m : @Async Page) (cs : list Call) : Prop :=
  forall s, exists tr,
    trace (m s).2 = trace s ++ tr /\
    Runs drive (page s) cs tr (m s).1 (page (m s).2).

(** The timeout a call carries; [fill], [click] and the fixed delay
    [waitForTimeout] carry none. *)
Definition timeoutOf (c : Call) : option Z :=
  match c with
  | goto _ _ t => Some t
  | waitForSelector _ t _ => Some t
  | waitForURL _ t => Some t
  | fill _ _ | click _ | waitForTimeout _ => None
  end.

Definition isFillOrClick (c : Call) : bool :=
  match c with
  | fill _ _ | click _ => true
  | _ => false
  end.

Definition isWaitForURL (c : Call) : bool :=
  match c with
  | waitForURL _ _ => true
  | _ => false
  end.

(** Two pages to run the engine against: one on which every call is
    fulfilled, and one whose login form never shows, so that every
    [waitForSelector] is rejected; the latter counts the calls it sees. *)
Definition cooperative (c : Call) (p : unit) : Outcome * unit :=
  (Fulfilled, p).

Definition formless (c : Call) (n : nat) : Outcome * nat :=
  match c with
  | waitForSelector _ _ _ => (Rejected, S n)
  | _ => (Fulfilled, S n)
  end.

(** * The screenshot function (index.ts)

    The numeric options are integers here.  The function only tests them
    ([||], [> 0]) and hands them on; under both tests [NaN] behaves as [0]
    does, and every other number as a non-zero integer of its sign. *)

Module ScreenshotOptions.
Record t := mk {
  url : string;
  auth : option AuthConfig.t;
  width : option Z;
  height : option Z;
  fullPage : option bool;
  waitFor : option string;
  output : option string;
  timeout : option Z;
  delay : option Z
}.
End ScreenshotOptions.

Definition Buffer := list byte.

Module ScreenshotResult.
Record t := mk {
  buffer : Buffer;
  path : option string;
  authenticated : bool;
  finalUrl : string;
  dimensions : Z * Z
}.
End ScreenshotResult.

(** [n || d] on numbers. *)
Definition num_or (n : option Z) (d : Z) : Z :=
  match n with
  | Some z => if (z =? 0)%Z then d else z
  | None => d
  end.

(** [b || false]. *)
Definition bool_or_false (b : option bool) : bool :=
  match b with
  | Some true => true
  | _ => false
  end.

(** What [screenshot] asks of the outside: the browser, the page (the
    [Call]s of the login flow among them) and the file system. *)
Inductive Op :=
| launch (headless : bool) (args : list string)
| newContext (width height : Z)
| newPage
| onPage (c : Call)
| page_screenshot (fullPage : bool) (type : string)
| browser_close
| writeFileSync (path : string) (data : Buffer).

(** How a [Promise<A>] settles inside [screenshot]: with a value, or with
    the rejection of the operation [op]. *)
Inductive Settled (A : Type) :=
| Value (a : A)
| Thrown (op : Op).

Arguments Value {A} a.
Arguments Thrown {A} op.

Section Capture.
Context {World : Type}.

(** The outside world settles an operation and moves on; [shot] is what
    the last [page.screenshot] resolved with and [pageUrl] is [page.url()]. *)
Variable world : Op -> World -> Outcome * World.
Variable shot : World -> Buffer.
Variable pageUrl : World -> string.

(** The world together with the operations so far, oldest first. *)
Record Job := { world_state : World; log : list (Op * Outcome) }.

Definition Task (A : Type) := Job -> Settled A * Job.

Definition pure {A : Type} (a : A) : Task A := fun j => (Value a, j).

Definition throw {A : Type} (err : Op) : Task A := fun j => (Thrown err, j).

Definition bind {A B : Type} (m : Task A) (k : A -> Task B) : Task B :=
  fun j =>
    match m j with
    | (Value a, j') => k a j'
    | (Thrown op, j') => (Thrown op, j')
    end.

(** [try { body } catch (err) { handler }]. *)
Definition tryCatch {A : Type} (body : Task A) (handler : Op -> Task A)
  : Task A :=
  fun j =>
    match body j with
    | (Value a, j') => (Value a, j')
    | (Thrown err, j') => handler err j'
    end.

(** One awaited (or synchronous, for [writeFileSync]) operation. *)
Definition perform (op : Op) : Task unit := fun j =>
  let r := world op (world_state j) in
  let j' := {| world_state := r.2; log := log j ++ [(op, r.1)] |} in
  match r.1 with
  | Fulfilled => (Value tt, j')
  | Rejected => (Thrown op, j')
  end.

(** A read of the page that settles nothing. *)
Definition inspect {A : Type} (f : World -> A) : Task A := fun j =>
  (Value (f (world_state j)), j).

(** [await authenticate(page, auth)]: the login flow, its calls made on the
    page of this world. *)
Definition authenticateOn (auth : AuthConfig.t) : Task unit := fun j =>
  let r := authenticate (fun c => world (onPage c)) auth
             (start (world_state j)) in
  let j' := {| world_state := page r.2;
               log := log j ++ map (fun e => (onPage e.1, e.2)) (trace r.2) |} in
  match r.1 with
  | Returned => (Value tt, j')
  | Threw c => (Thrown (onPage c), j')
  end.

Notation "x <- m ;;; k" := (bind m (fun x => k))
  (at level 90, m at level 69, right associativity).

(** The [try] block of [screenshot]. *)
Definition capture (options : ScreenshotOptions.t) (width height timeout : Z)
  : Task ScreenshotResult.t :=
  _ <- perform (newContext width height) ;;;
  _ <- perform newPage ;;;
  authenticated <-
    match ScreenshotOptions.auth options with
    | Some auth => (_ <- authenticateOn auth ;;; pure true)
    | None => pure false
    end ;;;
  _ <- perform (onPage (goto (ScreenshotOptions.url options) "networkidle"
                          timeout)) ;;;
  _ <- (if truthy (ScreenshotOptions.waitFor options) then
          perform (onPage (waitForSelector (ScreenshotOptions.waitFor options)
                             10000 None))
        else pure tt) ;;;
  let delay :=
    match ScreenshotOptions.delay options with
    | Some d => d
    | None => if authenticated : bool then 2000%Z else 0%Z
    end in
  _ <- (if (0 <? delay)%Z then perform (onPage (waitForTimeout delay))
        else pure tt) ;;;
  _ <- perform (page_screenshot
                  (bool_or_false (ScreenshotOptions.fullPage options))
                  "png") ;;;
  buffer <- inspect shot ;;;
  finalUrl <- inspect pageUrl ;;;
  _ <- perform browser_close ;;;
  _ <- match ScreenshotOptions.output options with
       | Some (String a o) => perform (writeFileSync (String a o) buffer)
       | _ => pure tt
       end ;;;
  pure {| ScreenshotResult.buffer := buffer;
          ScreenshotResult.path := ScreenshotOptions.output options;
          ScreenshotResult.authenticated := authenticated;
          ScreenshotResult.finalUrl := finalUrl;
          ScreenshotResult.dimensions := (width, height) |}.

(** The [catch] block: close the browser, then rethrow. *)
Definition cleanup (err : Op) : Task ScreenshotResult.t :=
  _ <- perform browser_close ;;; throw err.

Definition launchOptions : Op :=
  launch true
    ["--no-sandbox"; "--disable-setuid-sandbox"; "--disable-dev-shm-usage"].

Definition screenshot (options : ScreenshotOptions.t)
  : Task ScreenshotResult.t :=
  let width := num_or (ScreenshotOptions.width options) 1280 in
  let height := num_or (ScreenshotOptions.height options) 720 in
  let timeout := num_or (ScreenshotOptions.timeout options) 30000 in
  _ <- perform launchOptions ;;;
  tryCatch (capture options width height timeout) cleanup.

(** Nothing done yet. *)
Definition begin (w : World) : Job := {| world_state := w; log := [] |}.

End Capture.

Arguments Job : clear implicits.
Arguments Task : clear implicits.

(** The operations of the [try] block up to the closing of the browser,
    for a run in which [authenticate] returns. *)
Definition captureOps (options : ScreenshotOptions.t) : list Op :=
  [ newContext (num_or (ScreenshotOptions.width options) 1280)
      (num_or (ScreenshotOptions.height options) 720);
    newPage ]
  ++ match ScreenshotOptions.auth options with
     | Some auth => map onPage (flow auth)
     | None => []
     end
  ++ [ onPage (goto (ScreenshotOptions.url options) "networkidle"
                 (num_or (ScreenshotOptions.timeout options) 30000)) ]
  ++ (if truthy (ScreenshotOptions.waitFor options) then
        [ onPage (waitForSelector (ScreenshotOptions.waitFor options)
                    10000 None) ]
      else [])
  ++ match ScreenshotOptions.delay options with
     | Some d => if (0 <? d)%Z then [ onPage (waitForTimeout d) ] else []
     | None =>
         match ScreenshotOptions.auth options with
         | Some _ => [ onPage (waitForTimeout 2000) ]
         | None => []
         end
     end
  ++ [ page_screenshot (bool_or_false (ScreenshotOptions.fullPage options))
         "png";
       browser_close ].

(** The events of a task start where the job stood; when it settles with a
    value they are all fulfilled, and when it throws they are fulfilled up
    to the rejected operation, which is the last one and the one thrown. *)
Definition Orderly {World A : Type} (m : Task World A) : Prop :=
  forall j, exists ext,
    log (m j).2 = log j ++ ext /\
    match (m j).1 with
    | Value _ => Forall (fun e => e.2 = Fulfilled) ext
    | Thrown op =>
        exists pre,
          ext = pre ++ [(op, Rejected)] /\
          Forall (fun e => e.2 = Fulfilled) pre
    end.

(** A world in which every operation is fulfilled, with a fixed capture,
    and one in which the page never settles a navigation. *)
Definition obliging (op : Op) (w : unit) : Outcome * unit := (Fulfilled, w).

Definition offline (op : Op) (n : nat) : Outcome * nat :=
  match op with
  | onPage (goto _ _ _) => (Rejected, S n)
  | _ => (Fulfilled, S n)
  end.

Definition png (w : unit) : Buffer := [x89; x50; x4e; x47]%byte.

(** A request for an authenticated capture written to a file. *)
Definition sampleOptions : ScreenshotOptions.t :=
  {| ScreenshotOptions.url := "https://app.test/dashboard";
     ScreenshotOptions.auth :=
       Some (bare "https://app.test/login" "user@app.test" "secret"
               (Some "supabase"));
     ScreenshotOptions.width := None;
     ScreenshotOptions.height := Some 0%Z;
     ScreenshotOptions.fullPage := None;
     ScreenshotOptions.waitFor := None;
     ScreenshotOptions.output := Some "out.png";
     ScreenshotOptions.timeout := None;
     ScreenshotOptions.delay := None |}.

(** * Command-line parsing (cli.ts, parseArgs) *)

(** What the loop stores under a key: a string of [argv], or [true]. *)
Inductive RawValue :=
| Text (s : string)
| Flag.

Definition truthyRaw (v : RawValue) : bool :=
  match v with
  | Text s => truthy (Some s)
  | Flag => true
  end.

(** [String(v)], as [parseInt] sees its first argument. *)
Definition rawString (v : RawValue) : string :=
  match v with
  | Text s => s
  | Flag => "true"
  end.

(** [s.startsWith('-')]. *)
Definition startsWithDash (s : string) : bool := String.prefix "-" s.

Definition isLower (c : ascii) : bool :=
  (97 <=? nat_of_ascii c) && (nat_of_ascii c <=? 122).

(** [c.toUpperCase()] of a letter matched by [[a-z]]. *)
Definition toUpperCase (c : ascii) : ascii :=
  ascii_of_nat (nat_of_ascii c - 32).

(** [s.replace(/^-+/, '')]. *)
Fixpoint stripDashes (s : string) : string :=
  match s with
  | String c s' => if Ascii.eqb c "-" then stripDashes s' else s
  | EmptyString => s
  end.

(** [s.replace(/-([a-z])/g, (_, c) => c.toUpperCase())]: the matches are
    taken from left to right and do not overlap. *)
Fixpoint camelCase (s : string) : string :=
  match s with
  | EmptyString => EmptyString
  | String c s' =>
      match s' with
      | String d s'' =>
          if Ascii.eqb c "-" && isLower d then
            String (toUpperCase d) (camelCase s'')
          else String c (camelCase s')
      | EmptyString => String c EmptyString
      end
  end.

Definition optionKey (arg : string) : string := camelCase (stripDashes arg).

(** [args[key] = v] on an object created as [{}]: the key [__proto__] goes
    to the setter inherited from [Object.prototype], which ignores a string
    or a boolean, so no property is created. *)
Definition setProp (key : string) (v : RawValue) (args : gmap string RawValue)
  : gmap string RawValue :=
  if String.eqb key "__proto__" then args else <[key := v]> args.

(** One turn of the loop on [arg = argv[i]] with [next = argv[i + 1]]: the
    new [args] and [positional], and whether [i] was advanced past [next]. *)
Definition parseStep (arg : string) (next : option string)
    (args : gmap string RawValue) (positional : list string)
  : gmap string RawValue * list string * bool :=
  if String.eqb arg "--help" || String.eqb arg "-h" then
    (<["help" := Flag]> args, positional, false)
  else if String.eqb arg "-o" && truthy next then
    (<["output" := Text (default EmptyString next)]> args, positional, true)
  else if String.eqb arg "--full-page" then
    (<["fullPage" := Flag]> args, positional, false)
  else if String.eqb arg "--multi-step" then
    (<["multiStep" := Flag]> args, positional, false)
  else if startsWithDash arg then
    let key := optionKey arg in
    if truthy next && negb (startsWithDash (default EmptyString next)) then
      (setProp key (Text (default EmptyString next)) args, positional, true)
    else (setProp key Flag args, positional, false)
  else (args, positional ++ [arg], false).

(** The [for] loop over [argv]. *)
Fixpoint parseLoop (argv : list string) (args : gmap string RawValue)
    (positional : list string) : gmap string RawValue * list string :=
  match argv with
  | [] => (args, positional)
  | arg :: rest =>
      match rest with
      | next :: rest' =>
          let '(args', positional', advanced) :=
            parseStep arg (Some next) args positional in
          if advanced then parseLoop rest' args' positional'
          else parseLoop rest args' positional'
      | [] =>
          let '(args', positional', _) := parseStep arg None args positional in
          (args', positional')
      end
  end.

(** The keys whose values are parsed as numbers. *)
Definition numericKeys : list string := ["width"; "height"; "timeout"; "delay"].

Section Cli.
Context {Number : Type}.

(** [parseInt(s, 10)], the built-in. *)
Variable parseInt : string -> Number.

(** A value of the returned object. *)
Inductive ArgValue :=
| AStr (s : string)
| ATrue
| ANum (n : Number).

Definition ofRaw (v : RawValue) : ArgValue :=
  match v with
  | Text s => AStr s
  | Flag => ATrue
  end.

(** [if (args.key) args.key = parseInt(args.key, 10)].  The four keys are
    distinct, so each test reads what the loop stored under its key. *)
Definition parseNumber (raw : gmap string RawValue) (key : string)
    (args : gmap string ArgValue) : gmap string ArgValue :=
  match raw !! key with
  | Some v =>
      if truthyRaw v then <[key := ANum (parseInt (rawString v))]> args
      else args
  | None => args
  end.

Definition parseArgs (argv : list string) : gmap string ArgValue :=
  let '(args, positional) := parseLoop argv ∅ [] in
  let args :=
    match positional with
    | url :: _ => <["url" := Text url]> args
    | [] => args
    end in
  parseNumber args "delay"
    (parseNumber args "timeout"
       (parseNumber args "height"
          (parseNumber args "width" (ofRaw <$> args)))).

End Cli.

Arguments ArgValue : clear implicits.

(** A word of lower-case letters, and the word with its first letter in
    upper case. *)
Definition lowerWord (w : string) : Prop :=
  w <> EmptyString /\ Forall (fun c => isLower c = true) (list_ascii_of_string w).

Definition capitalize (w : string) : string :=
  match w with
  | String c w' => String (toUpperCase c) w'
  | EmptyString => EmptyString
  end.

(** [words.join('')] and the kebab-case option made of a first word and
    further words. *)
Definition joinWords (ws : list string) : string :=
  foldr String.append EmptyString ws.

Definition kebab (w : string) (ws : list string) : string :=
  "--" +:+ w +:+ joinWords (map (String.append "-") ws).

(** The arguments that are flags of their own: they take no value. *)
Definition isFlagArg (arg : string) : Prop :=
  arg = "--help" \/ arg = "-h" \/ arg = "--full-page" \/ arg = "--multi-step".

(** What the loop stores is never an empty string, and a string that
    starts with a dash is stored under [output] only; no positional
    argument starts with a dash. *)
Definition wellStored (args : gmap string RawValue) (positional : list string)
  : Prop :=
  (forall key s,
      args !! key = Some (Text s) ->
      s <> EmptyString /\ (startsWithDash s = true -> key = "output")) /\
  Forall (fun p => startsWithDash p = false) positional.

(** Where a stored value comes from in [argv]: a string is the argument
    right after [-o] (under [output]) or right after an option of that key;
    [true] comes from one of the flags, or from an option of that key that
    no usable value follows. *)
Definition cameFrom (argv : list string) (key : string) (v : RawValue)
  : Prop :=
  exists i opt,
    argv !! i = Some opt /\ startsWithDash opt = true /\
    match v with
    | Text s =>
        argv !! S i = Some s /\ s <> EmptyString /\
        ((opt = "-o" /\ key = "output") \/
         (optionKey opt = key /\ startsWithDash s = false))
    | Flag =>
        (isFlagArg opt /\ key ∈ ["help"; "fullPage"; "multiStep"]) \/
        (optionKey opt = key /\
         truthy (argv !! S i)
         && negb (startsWithDash (default EmptyString (argv !! S i))) = false)
    end.

(** A stand-in for [parseInt] on short decimal numerals; [None] is [NaN]. *)
Definition parseDecimal (s : string) : option Z :=
  match s with
  | "800" => Some 800%Z
  | "600" => Some 600%Z
  | "0" => Some 0%Z
  | _ => None
  end.

(** * Properties *)

(** ** The preset table *)

Lemma PRESETS_generic : PRESETS !! "generic" = Some generic.
Proof. reflexivity. Qed.

(** The table has exactly the four rows of the source. *)
Lemma PRESETS_rows (name : string) (p : AuthPreset.t) :
  PRESETS !! name = Some p <->
  (name = "supabase" /\ p = supabase) \/ (name = "clerk" /\ p = clerk) \/
  (name = "salesforce" /\ p = salesforce) \/ (name = "generic" /\ p = generic).
Proof.
  unfold PRESETS. rewrite !lookup_insert_Some, lookup_empty.
  split.
  - intros [H | [_ [H | [_ [H | [_ [H | [_ H]]]]]]]];
      try discriminate; destruct H as [<- <-]; auto.
  - intros [[-> ->] | [[-> ->] | [[-> ->] | [-> ->]]]].
    + left. done.
    + right. split; [done |]. left. done.
    + right. split; [done |]. right. split; [done |]. left. done.
    + right. split; [done |]. right. split; [done |]. right.
      split; [done |]. left. done.
Qed.

Lemma PRESETS_key_nonempty (name : string) (p : AuthPreset.t) :
  PRESETS !! name = Some p -> presetKey (Some name) = name.
Proof.
  intros H. apply PRESETS_rows in H.
  destruct H as [[-> _] | [[-> _] | [[-> _] | [-> _]]]]; reflexivity.
Qed.

Lemma lookupPreset_own (name : string) (p : AuthPreset.t) :
  PRESETS !! name = Some p -> lookupPreset (Some name) = Own p.
Proof.
  intros H. unfold lookupPreset, PRESETS_get.
  rewrite (PRESETS_key_nonempty name p H), H. reflexivity.
Qed.

Lemma lookupPreset_absent : lookupPreset None = Own generic.
Proof. reflexivity. Qed.

Lemma lookupPreset_empty : lookupPreset (Some EmptyString) = Own generic.
Proof. reflexivity. Qed.

(** A name that is neither a row of the table nor a member of
    [Object.prototype] selects the generic row. *)
Lemma lookupPreset_unknown (name : string) :
  PRESETS !! name = None -> name ∉ Object_prototype ->
  lookupPreset (Some name) = Own generic.
Proof.
  intros Hown Hproto. destruct name as [| a name]; [reflexivity |].
  unfold lookupPreset, PRESETS_get. cbn [presetKey]. rewrite Hown.
  rewrite bool_decide_eq_false_2 by exact Hproto. reflexivity.
Qed.

(** A member of [Object.prototype] is what the read returns, and the
    generic row is not substituted for it. *)
Lemma lookupPreset_inherited (name : string) :
  name ∈ Object_prototype -> lookupPreset (Some name) = Inherited name.
Proof.
  intros H. unfold Object_prototype in H.
  repeat (apply elem_of_cons in H; destruct H as [-> | H]; [reflexivity |]).
  apply elem_of_nil in H. destruct H.
Qed.

(** Whatever [lookupPreset] returns as a row is a row of the table. *)
Lemma lookupPreset_row (name : option string) (p : AuthPreset.t) :
  lookupPreset name = Own p -> exists k, PRESETS !! k = Some p.
Proof.
  unfold lookupPreset, PRESETS_get.
  destruct (PRESETS !! presetKey name) as [q |] eqn:E.
  - intros [= <-]. eauto.
  - case_bool_decide; intros [= <-]. exists "generic". reflexivity.
Qed.

(** ** The operators *)

Lemma js_or_merged (o d : option string) : merged o d (o ||| d).
Proof.
  split.
  - intros s -> Hs. destruct s; [contradiction | reflexivity].
  - intros [-> | ->]; reflexivity.
Qed.

Lemma js_or_not_empty (o d : option string) :
  d <> Some EmptyString -> o ||| d <> Some EmptyString.
Proof.
  intros Hd. unfold js_or. destruct o as [[| a s] |]; cbn; congruence.
Qed.

(** ** Selector resolution *)

(** C1.  For each of emailSelector, passwordSelector, submitSelector,
    continueSelector and successUrlPattern the resolved value is the
    configuration's own value whenever that is a non-empty string, and the
    default of the looked-up preset when it is absent or empty.  Hence a
    configuration that names a row of the table and overrides nothing
    resolves to exactly that row's defaults. *)
Theorem resolve_override_precedence (auth : AuthConfig.t) :
  let preset := lookupPreset (AuthConfig.preset auth) in
  let sel := resolveSelectors auth in
  merged (AuthConfig.emailSelector auth) (Field.emailSelector preset)
    (Resolved.emailSelector sel) /\
  merged (AuthConfig.passwordSelector auth) (Field.passwordSelector preset)
    (Resolved.passwordSelector sel) /\
  merged (AuthConfig.submitSelector auth) (Field.submitSelector preset)
    (Resolved.submitSelector sel) /\
  merged (AuthConfig.continueSelector auth) (Field.continueSelector preset)
    (Resolved.continueSelector sel) /\
  merged (AuthConfig.successUrlPattern auth) (Field.successUrlPattern preset)
    (Resolved.successUrlPattern sel) /\
  (forall name p,
      PRESETS !! name = Some p ->
      resolveSelectors
        (bare (AuthConfig.loginUrl auth) (AuthConfig.email auth)
           (AuthConfig.password auth) (Some name))
      = defaults p).
Proof.
  cbn zeta. repeat split; try apply js_or_merged.
  intros name p H. unfold resolveSelectors, bare.
  cbn [AuthConfig.preset AuthConfig.emailSelector AuthConfig.passwordSelector
       AuthConfig.submitSelector AuthConfig.successUrlPattern
       AuthConfig.successSelector AuthConfig.multiStep
       AuthConfig.continueSelector].
  rewrite (lookupPreset_own name p H). reflexivity.
Qed.

Lemma resolve_override_precedence_clerk :
  resolveSelectors
    (bare "https://app.test/sign-in" "user@app.test" "secret" (Some "clerk"))
  = defaults clerk.
Proof.
  apply (resolve_override_precedence
           (bare "https://app.test/sign-in" "user@app.test" "secret" None)).
  reflexivity.
Defined.

(** C2.  The preset name [constructor] is not one of the four rows, yet
    resolving it does not give what the generic preset gives: the read
    [PRESETS["constructor"]] finds the member inherited from
    [Object.prototype], which is truthy and has none of the preset fields, so
    every resolved field is [undefined]. *)
Theorem resolve_inherited_name_not_generic (loginUrl email password : string) :
  PRESETS !! "constructor" = None /\
  resolveSelectors (bare loginUrl email password (Some "constructor"))
  = {| Resolved.emailSelector := None;
       Resolved.passwordSelector := None;
       Resolved.submitSelector := None;
       Resolved.successUrlPattern := None;
       Resolved.successSelector := None;
       Resolved.multiStep := None;
       Resolved.continueSelector := None |} /\
  resolveSelectors (bare loginUrl email password (Some "generic"))
  = defaults generic /\
  resolveSelectors (bare loginUrl email password (Some "constructor"))
  <> resolveSelectors (bare loginUrl email password (Some "generic")).
Proof.
  repeat split; try reflexivity. discriminate.
Qed.

(** Away from the inherited names the lookup is as the table says: a
    configuration whose preset is absent, empty or unknown resolves as it
    does under [generic]. *)
Lemma resolve_unknown_is_generic (auth : AuthConfig.t) :
  match AuthConfig.preset auth with
  | Some n => PRESETS !! n = None /\ n ∉ Object_prototype
  | None => True
  end ->
  resolveSelectors auth = resolveSelectors (withPreset auth (Some "generic")).
Proof.
  intros H. unfold resolveSelectors, withPreset. cbn.
  replace (lookupPreset (AuthConfig.preset auth)) with (Own generic);
    [reflexivity |].
  destruct (AuthConfig.preset auth) as [n |]; [| reflexivity].
  destruct H as [Hown Hproto]. symmetry.
  apply lookupPreset_unknown; assumption.
Qed.


(** ** Substrings and the URL predicate *)

Lemma append_cons (a : ascii) (p t : string) :
  String a p +:+ t = String a (p +:+ t).
Proof. reflexivity. Qed.

Lemma append_nil (t : string) : EmptyString +:+ t = t.
Proof. reflexivity. Qed.

Lemma prefix_append (p s : string) :
  String.prefix p s = true <-> exists t, s = p +:+ t.
Proof.
  revert s. induction p as [| a p IH]; intros [| b s]; cbn.
  - split; [intros _; exists EmptyString; reflexivity | reflexivity].
  - split; [intros _; exists (String b s); reflexivity | reflexivity].
  - split; [discriminate | intros [t [=]]].
  - destruct (Ascii.ascii_dec a b) as [-> | Hab].
    + rewrite IH. split; intros [t Ht]; exists t;
        rewrite append_cons in *; congruence.
    + split; [discriminate |]. intros [t Ht].
      rewrite append_cons in Ht. congruence.
Qed.

Lemma includes_contains (s sub : string) :
  includes s sub = true <-> contains s sub.
Proof.
  unfold contains. induction s as [| c s IH]; cbn [includes].
  - rewrite orb_false_r, prefix_append. split.
    + intros [t Ht]. exists EmptyString, t. exact Ht.
    + intros [[| c a] [b H]]; [eauto | discriminate].
  - rewrite orb_true_iff, prefix_append, IH. split.
    + intros [[t Ht] | [a [b H]]].
      * exists EmptyString, t. exact Ht.
      * exists (String c a), b. rewrite append_cons. congruence.
    + intros [[| c' a] [b H]].
      * left. exists b. exact H.
      * right. exists a, b. rewrite append_cons in H. congruence.
Qed.

Lemma includes_not_contains (s sub : string) :
  includes s sub = false <-> ~ contains s sub.
Proof.
  rewrite <- includes_contains. destruct (includes s sub); split; congruence.
Qed.

(** C5.  With the pattern [/] a path satisfies the predicate exactly when it
    contains none of [/login], [/sign-in], [/auth/]; with any other pattern,
    exactly when it contains the pattern.  So under [/] the path
    [/dashboard] passes and [/auth/login] does not, and under [/home] the
    path [/org/home] passes and [/dashboard] does not. *)
Theorem urlPredicate_heuristic :
  (forall path,
      urlPredicate "/" {| pathname := path |} = true <->
      ~ contains path "/login" /\ ~ contains path "/sign-in" /\
      ~ contains path "/auth/") /\
  (forall pattern path,
      pattern <> "/" ->
      urlPredicate pattern {| pathname := path |} = true <->
      contains path pattern) /\
  urlPredicate "/" {| pathname := "/dashboard" |} = true /\
  urlPredicate "/" {| pathname := "/auth/login" |} = false /\
  urlPredicate "/home" {| pathname := "/org/home" |} = true /\
  urlPredicate "/home" {| pathname := "/dashboard" |} = false.
Proof.
  split; [| split; [| repeat split; reflexivity]].
  - intros path. unfold urlPredicate. cbn [String.eqb Ascii.eqb pathname].
    cbn. rewrite !andb_true_iff, !negb_true_iff, !includes_not_contains.
    tauto.
  - intros pattern path Hne. unfold urlPredicate. cbn [pathname].
    destruct (String.eqb_spec pattern "/") as [-> | _]; [contradiction |].
    apply includes_contains.
Qed.

Lemma urlPredicate_heuristic_home :
  urlPredicate "/home" {| pathname := "/org/home" |} = true /\
  contains "/org/home" "/home".
Proof.
  pose proof (proj1 (proj2 urlPredicate_heuristic) "/home" "/org/home") as H.
  assert (Hne : "/home" <> "/") by discriminate.
  split; [reflexivity |]. apply (proj1 (H Hne)). reflexivity.
Defined.

(** ** Runs of the page driver *)

Section RunFacts.
Context {Page : Type} (drive : Call -> Page -> Outcome * Page).

Lemma Runs_app_returned p cs1 tr1 r1 p1 cs2 tr2 r p2 :
  Runs drive p cs1 tr1 r1 p1 -> r1 = Returned ->
  Runs drive p1 cs2 tr2 r p2 ->
  Runs drive p (cs1 ++ cs2) (tr1 ++ tr2) r p2.
Proof.
  induction 1 as [p | p c cs p1' tr r1 p' Hd _ IH | p c cs p' Hd];
    intros Hr Hk.
  - exact Hk.
  - cbn. eapply Runs_fulfilled; [exact Hd |]. apply IH; assumption.
  - discriminate.
Qed.

Lemma Runs_app_threw p cs1 tr1 r1 c p1 cs2 :
  Runs drive p cs1 tr1 r1 p1 -> r1 = Threw c ->
  Runs drive p (cs1 ++ cs2) tr1 (Threw c) p1.
Proof.
  induction 1 as [p | p c' cs p1' tr r1 p' Hd _ IH | p c' cs p' Hd];
    intros Hr.
  - discriminate.
  - cbn. eapply Runs_fulfilled; [exact Hd |]. apply IH. exact Hr.
  - injection Hr as ->. cbn. apply Runs_rejected. exact Hd.
Qed.

(** The calls made are an initial segment of the calls to make. *)
Lemma Runs_calls_prefix p cs tr r p' :
  Runs drive p cs tr r p' -> map fst tr `prefix_of` cs.
Proof.
  induction 1 as [p | p c cs p1 tr r p' Hd _ IH | p c cs p' Hd]; cbn.
  - reflexivity.
  - apply prefix_cons. exact IH.
  - apply prefix_cons, prefix_nil.
Qed.

(** A rejected call is the last one made, and its rejection is how the
    run completes. *)
Lemma Runs_rejected_last p cs tr r p' pre c post :
  Runs drive p cs tr r p' -> tr = pre ++ (c, Rejected) :: post ->
  post = [] /\ r = Threw c.
Proof.
  intros H. revert pre.
  induction H as [p | p c' cs p1 tr r p' Hd _ IH | p c' cs p' Hd];
    intros pre E.
  - destruct pre; discriminate.
  - destruct pre as [| e pre]; cbn in E; [discriminate |].
    injection E as _ E. exact (IH pre E).
  - destruct pre as [| e pre]; cbn in E.
    + injection E as <- <-. auto.
    + injection E as _ E. destruct pre; discriminate.
Qed.

(** A run that returns has made every call, each fulfilled. *)
Lemma Runs_returned p cs tr r p' :
  Runs drive p cs tr r p' -> r = Returned ->
  tr = map (fun c => (c, Fulfilled)) cs.
Proof.
  induction 1 as [p | p c cs p1 tr r p' Hd _ IH | p c cs p' Hd]; intros Hr.
  - reflexivity.
  - cbn. rewrite (IH Hr). reflexivity.
  - discriminate.
Qed.

(** The second call rejected after the first is fulfilled: these two
    calls are the whole run. *)
Lemma Runs_second_rejected p c1 c2 cs tr r p' p1 :
  Runs drive p (c1 :: c2 :: cs) tr r p' ->
  drive c1 p = (Fulfilled, p1) -> (drive c2 p1).1 = Rejected ->
  tr = [(c1, Fulfilled); (c2, Rejected)] /\ r = Threw c2.
Proof.
  intros H Hd1 Hd2.
  inversion H as [| ? ? ? q1 tr1 ? ? Hq1 H1 | ? ? ? ? Hq1]; subst;
    rewrite Hd1 in Hq1; [| discriminate].
  injection Hq1 as <-.
  inversion H1 as [| ? ? ? q2 tr2 ? ? Hq2 H2 | ? ? ? ? Hq2]; subst;
    rewrite Hq2 in Hd2; [discriminate |].
  split; reflexivity.
Qed.

Lemma issues_done : issues drive done_ [].
Proof.
  intros s. exists []. cbn. rewrite app_nil_r. split; [done | constructor].
Qed.

Lemma issues_await c : issues drive (await drive c) [c].
Proof.
  intros s. unfold await.
  destruct (drive c (page s)) as [o p1] eqn:E. cbn [fst snd].
  destruct o; cbn [fst snd page trace].
  - exists [(c, Fulfilled)]. split; [done |].
    eapply Runs_fulfilled; [exact E | constructor].
  - exists [(c, Rejected)]. split; [done |].
    apply Runs_rejected. exact E.
Qed.

Lemma issues_andThen m k cs1 cs2 :
  issues drive m cs1 -> issues drive k cs2 ->
  issues drive (andThen m k) (cs1 ++ cs2).
Proof.
  intros Hm Hk s. unfold andThen.
  destruct (Hm s) as (tr1 & Ht1 & Hr1).
  destruct (m s) as [[| c] s1] eqn:E; cbn [fst snd] in *.
  - destruct (Hk s1) as (tr2 & Ht2 & Hr2).
    exists (tr1 ++ tr2). split.
    + rewrite Ht2, Ht1, app_assoc. reflexivity.
    + eapply Runs_app_returned; eauto.
  - exists tr1. split; [exact Ht1 |].
    eapply Runs_app_threw; eauto.
Qed.

(** The detector makes one call. *)
Lemma waitForLoginSuccess_call sel s :
  waitForLoginSuccess drive sel s = await drive (successCall sel) s.
Proof.
  unfold waitForLoginSuccess, successCall.
  destruct (truthy (Resolved.successSelector sel)); [reflexivity |].
  destruct (Resolved.successUrlPattern sel) as [[| a q] |]; reflexivity.
Qed.

Lemma issues_waitForLoginSuccess sel :
  issues drive (waitForLoginSuccess drive sel) [successCall sel].
Proof.
  intros s. rewrite waitForLoginSuccess_call. apply issues_await.
Qed.

(** [authenticate] makes the calls of [flow], in that order. *)
Lemma issues_authenticate auth :
  issues drive (authenticate drive auth) (flow auth).
Proof.
  unfold authenticate, flow. cbn zeta.
  apply (issues_andThen _ _ [_]); [apply issues_await |].
  apply (issues_andThen _ _ [_]); [apply issues_await |].
  apply (issues_andThen _ _ [_]); [apply issues_await |].
  apply issues_andThen.
  - destruct (Resolved.multiStep (resolveSelectors auth)) as [[|] |];
      try apply issues_done.
    apply (issues_andThen _ _ [_] [_]); apply issues_await.
  - apply (issues_andThen _ _ [_]); [apply issues_await |].
    apply (issues_andThen _ _ [_]); [apply issues_await |].
    apply issues_waitForLoginSuccess.
Qed.

Lemma authenticate_Runs auth p :
  Runs drive p (flow auth)
    (trace (authenticate drive auth (start p)).2)
    (authenticate drive auth (start p)).1
    (page (authenticate drive auth (start p)).2).
Proof.
  destruct (issues_authenticate auth (start p)) as (tr & Ht & Hr).
  cbn in Ht. rewrite Ht. exact Hr.
Qed.

End RunFacts.

(** ** Facts about resolved bundles *)

Lemma row_continueSelector (k : string) (p : AuthPreset.t) :
  PRESETS !! k = Some p -> AuthPreset.continueSelector p <> Some EmptyString.
Proof.
  intros H. apply PRESETS_rows in H.
  destruct H as [[_ ->] | [[_ ->] | [[_ ->] | [_ ->]]]]; discriminate.
Qed.

Lemma row_successUrlPattern (k : string) (p : AuthPreset.t) :
  PRESETS !! k = Some p ->
  truthy (Some (AuthPreset.successUrlPattern p)) = true.
Proof.
  intros H. apply PRESETS_rows in H.
  destruct H as [[_ ->] | [[_ ->] | [[_ ->] | [_ ->]]]]; reflexivity.
Qed.

(** The resolved continueSelector is a non-empty string or [undefined], so
    on it [||] and "if absent" agree. *)
Lemma resolved_continueSelector (auth : AuthConfig.t) :
  Resolved.continueSelector (resolveSelectors auth) <> Some EmptyString.
Proof.
  cbn. apply js_or_not_empty.
  destruct (lookupPreset (AuthConfig.preset auth)) as [p | k] eqn:E; cbn.
  - destruct (lookupPreset_row _ _ E) as [k Hk].
    exact (row_continueSelector k p Hk).
  - discriminate.
Qed.

Lemma continueBtn_fallback (auth : AuthConfig.t) :
  let sel := resolveSelectors auth in
  Resolved.continueSelector sel ||| Resolved.submitSelector sel
  = match Resolved.continueSelector sel with
    | Some c => Some c
    | None => Resolved.submitSelector sel
    end.
Proof.
  cbn zeta. pose proof (resolved_continueSelector auth) as H.
  destruct (Resolved.continueSelector (resolveSelectors auth)) as [[| a c] |];
    [contradiction | reflexivity | reflexivity].
Qed.

(** When the lookup lands on a row of the table, the resolved
    successUrlPattern is a non-empty string. *)
Lemma resolved_successUrlPattern_own (auth : AuthConfig.t) (p : AuthPreset.t) :
  lookupPreset (AuthConfig.preset auth) = Own p ->
  truthy (Resolved.successUrlPattern (resolveSelectors auth)) = true.
Proof.
  intros E. cbn. rewrite E. cbn. unfold js_or.
  destruct (truthy (AuthConfig.successUrlPattern auth)) eqn:T; [exact T |].
  destruct (lookupPreset_row _ _ E) as [k Hk].
  exact (row_successUrlPattern k p Hk).
Qed.

(** ** Success detection *)

(** C4.  One call of the detector makes exactly one driver call.  When
    successSelector is set (a non-empty string, which is what the source
    tests) that call is the wait for this selector, with the 15 s budget,
    and no [waitForURL] is made, whatever successUrlPattern holds; when it
    is not set and successUrlPattern is, the call is the [waitForURL] with
    the pattern's predicate; and a [waitForURL] is made in no other case. *)
Theorem detector_strategy_priority {Page : Type}
    (drive : Call -> Page -> Outcome * Page)
    (sel : Resolved.t) (s : Session Page) :
  exists c o,
    trace (waitForLoginSuccess drive sel s).2 = trace s ++ [(c, o)] /\
    (truthy (Resolved.successSelector sel) = true ->
       c = waitForSelector (Resolved.successSelector sel) 15000 None /\
       isWaitForURL c = false) /\
    (truthy (Resolved.successSelector sel) = false ->
     truthy (Resolved.successUrlPattern sel) = true ->
       exists pattern,
         Resolved.successUrlPattern sel = Some pattern /\
         c = waitForURL (urlPredicate pattern) 15000) /\
    (isWaitForURL c = true ->
       truthy (Resolved.successSelector sel) = false /\
       truthy (Resolved.successUrlPattern sel) = true).
Proof.
  exists (successCall sel), (drive (successCall sel) (page s)).1.
  split.
  - rewrite waitForLoginSuccess_call. unfold await.
    destruct (drive (successCall sel) (page s)) as [[|] p1]; reflexivity.
  - unfold successCall.
    destruct (truthy (Resolved.successSelector sel)).
    + repeat split; try discriminate; reflexivity.
    + destruct (Resolved.successUrlPattern sel) as [[| a q] |]; cbn;
        repeat split; try discriminate; eauto.
Qed.

Lemma detector_strategy_priority_both_set :
  exists o,
    trace
      (waitForLoginSuccess cooperative
         {| Resolved.emailSelector := Some "#email";
            Resolved.passwordSelector := Some "#password";
            Resolved.submitSelector := Some "#submit";
            Resolved.successUrlPattern := Some "/";
            Resolved.successSelector := Some "#app";
            Resolved.multiStep := Some false;
            Resolved.continueSelector := None |}
         (start tt)).2
    = [(waitForSelector (Some "#app") 15000 None, o)].
Proof.
  destruct
    (detector_strategy_priority cooperative
       {| Resolved.emailSelector := Some "#email";
          Resolved.passwordSelector := Some "#password";
          Resolved.submitSelector := Some "#submit";
          Resolved.successUrlPattern := Some "/";
          Resolved.successSelector := Some "#app";
          Resolved.multiStep := Some false;
          Resolved.continueSelector := None |}
       (start tt)) as (c & o & Ht & Hsel & _).
  destruct (Hsel eq_refl) as [-> _].
  exists o. exact Ht.
Defined.

(** C7.  When neither successSelector nor successUrlPattern is set, the
    detector makes the single call [waitForTimeout(5000)] and, once that
    delay has elapsed, returns normally: nothing about the page is
    consulted. *)
Theorem detector_fallback {Page : Type}
    (drive : Call -> Page -> Outcome * Page)
    (sel : Resolved.t) (s : Session Page) :
  truthy (Resolved.successSelector sel) = false ->
  truthy (Resolved.successUrlPattern sel) = false ->
  (drive (waitForTimeout 5000) (page s)).1 = Fulfilled ->
  waitForLoginSuccess drive sel s
  = (Returned,
     {| page := (drive (waitForTimeout 5000) (page s)).2;
        trace := trace s ++ [(waitForTimeout 5000, Fulfilled)] |}).
Proof.
  intros Hsel Hurl Hfired. unfold waitForLoginSuccess. rewrite Hsel.
  assert (E : await drive (waitForTimeout 5000) s
              = (Returned,
                 {| page := (drive (waitForTimeout 5000) (page s)).2;
                    trace := trace s ++ [(waitForTimeout 5000, Fulfilled)] |})).
  { unfold await. rewrite Hfired. reflexivity. }
  destruct (Resolved.successUrlPattern sel) as [[| a q] |];
    [exact E | discriminate | exact E].
Qed.

Lemma detector_fallback_unset :
  waitForLoginSuccess formless
    {| Resolved.emailSelector := Some "#email";
       Resolved.passwordSelector := Some "#password";
       Resolved.submitSelector := Some "#submit";
       Resolved.successUrlPattern := None;
       Resolved.successSelector := None;
       Resolved.multiStep := Some false;
       Resolved.continueSelector := None |}
    (start 0)
  = (Returned,
     {| page := 1; trace := [(waitForTimeout 5000, Fulfilled)] |}).
Proof.
  apply (detector_fallback formless); reflexivity.
Defined.

(** When the lookup lands on a row of the table and no successSelector is
    set, the detector takes the URL strategy, not the fallback. *)
Lemma fallback_not_taken_own (auth : AuthConfig.t) (p : AuthPreset.t) :
  lookupPreset (AuthConfig.preset auth) = Own p ->
  forall ms, successCall (resolveSelectors auth) <> waitForTimeout ms.
Proof.
  intros E ms. pose proof (resolved_successUrlPattern_own auth p E) as T.
  unfold successCall.
  destruct (truthy (Resolved.successSelector (resolveSelectors auth)));
    [discriminate |].
  destruct (Resolved.successUrlPattern (resolveSelectors auth))
    as [[| a q] |]; discriminate.
Qed.

(** C10.  A bundle that the resolver produces can reach the fallback.  For
    the preset name [constructor] the resolved successUrlPattern is
    [undefined] unless the configuration overrides it; with the three form
    selectors overridden and a page that fulfils every call, the login flow
    runs to the detector, which makes the [waitForTimeout(5000)] call of the
    fallback, and [authenticate] returns normally. *)
Theorem fallback_reached_from_resolver (loginUrl email password : string) :
  let auth :=
    {| AuthConfig.loginUrl := loginUrl;
       AuthConfig.email := email;
       AuthConfig.password := password;
       AuthConfig.preset := Some "constructor";
       AuthConfig.emailSelector := Some "#email";
       AuthConfig.passwordSelector := Some "#password";
       AuthConfig.submitSelector := Some "#submit";
       AuthConfig.successUrlPattern := None;
       AuthConfig.successSelector := None;
       AuthConfig.multiStep := None;
       AuthConfig.continueSelector := None |} in
  Resolved.successUrlPattern
    (resolveSelectors (bare loginUrl email password (Some "constructor")))
  = None /\
  Resolved.successUrlPattern (resolveSelectors auth) = None /\
  Resolved.successSelector (resolveSelectors auth) = None /\
  (forall (Page : Type) (drive : Call -> Page -> Outcome * Page)
          (s : Session Page),
      waitForLoginSuccess drive (resolveSelectors auth) s
      = await drive (waitForTimeout 5000) s) /\
  authenticate cooperative auth (start tt)
  = (Returned,
     {| page := tt;
        trace :=
          map (fun c => (c, Fulfilled))
            [ goto loginUrl "networkidle" 30000;
              waitForSelector (Some "#email") 10000 None;
              fill (Some "#email") email;
              fill (Some "#password") password;
              click (Some "#submit");
              waitForTimeout 5000 ] |}).
Proof.
  repeat split.
Qed.

(** ** The login flow *)

(** C6.  With multiStep resolved to [true] the engine, once the email is
    filled, clicks continueSelector, or submitSelector when there is no
    continueSelector, then waits for the password selector with
    [state: 'visible'] and only then fills the password; otherwise the
    password is filled right after the email, with no click and no wait in
    between.  Each call is made only once the one before is fulfilled. *)
Theorem multi_step_continuation {Page : Type}
    (drive : Call -> Page -> Outcome * Page) (p : Page)
    (auth : AuthConfig.t) :
  let sel := resolveSelectors auth in
  let run := authenticate drive auth (start p) in
  (Resolved.multiStep sel = Some true ->
   Runs drive p
     [ goto (AuthConfig.loginUrl auth) "networkidle" 30000;
       waitForSelector (Resolved.emailSelector sel) 10000 None;
       fill (Resolved.emailSelector sel) (AuthConfig.email auth);
       click (match Resolved.continueSelector sel with
              | Some c => Some c
              | None => Resolved.submitSelector sel
              end);
       waitForSelector (Resolved.passwordSelector sel) 10000 (Some "visible");
       fill (Resolved.passwordSelector sel) (AuthConfig.password auth);
       click (Resolved.submitSelector sel);
       successCall sel ]
     (trace run.2) run.1 (page run.2)) /\
  (Resolved.multiStep sel <> Some true ->
   Runs drive p
     [ goto (AuthConfig.loginUrl auth) "networkidle" 30000;
       waitForSelector (Resolved.emailSelector sel) 10000 None;
       fill (Resolved.emailSelector sel) (AuthConfig.email auth);
       fill (Resolved.passwordSelector sel) (AuthConfig.password auth);
       click (Resolved.submitSelector sel);
       successCall sel ]
     (trace run.2) run.1 (page run.2)).
Proof.
  cbn zeta. pose proof (authenticate_Runs drive auth p) as H.
  pose proof (continueBtn_fallback auth) as Hbtn. cbn zeta in Hbtn.
  unfold flow in H. cbn zeta in H. split; intros Hms.
  - rewrite Hms, Hbtn in H. exact H.
  - destruct (Resolved.multiStep (resolveSelectors auth)) as [[|] |];
      [contradiction | exact H | exact H].
Qed.

Lemma multi_step_continuation_clerk :
  trace
    (authenticate cooperative
       (bare "https://app.test/sign-in" "user@app.test" "secret"
          (Some "clerk"))
       (start tt)).2
  = map (fun c => (c, Fulfilled))
      [ goto "https://app.test/sign-in" "networkidle" 30000;
        waitForSelector (Some (AuthPreset.emailSelector clerk)) 10000 None;
        fill (Some (AuthPreset.emailSelector clerk)) "user@app.test";
        click (Some (attr "button" "type" "submit"));
        waitForSelector (Some (AuthPreset.passwordSelector clerk)) 10000
          (Some "visible");
        fill (Some (AuthPreset.passwordSelector clerk)) "secret";
        click (Some (AuthPreset.submitSelector clerk));
        waitForURL (urlPredicate "/") 15000 ].
Proof.
  eapply (Runs_returned cooperative tt); [| reflexivity].
  apply (proj1 (multi_step_continuation cooperative tt
                  (bare "https://app.test/sign-in" "user@app.test" "secret"
                     (Some "clerk")))).
  reflexivity.
Defined.

(** C8.  A rejected call is the last call the engine makes and its
    rejection is what [authenticate] completes with; the calls made are an
    initial segment of the flow, so none is made twice.  In particular, when
    the navigation succeeds and the wait for the email field is rejected,
    the engine has made these two calls only: no [fill], no [click]. *)
Theorem abort_on_first_failure {Page : Type}
    (drive : Call -> Page -> Outcome * Page) (p : Page)
    (auth : AuthConfig.t) :
  let sel := resolveSelectors auth in
  let run := authenticate drive auth (start p) in
  let navigation := goto (AuthConfig.loginUrl auth) "networkidle" 30000 in
  let emailWait := waitForSelector (Resolved.emailSelector sel) 10000 None in
  (forall pre c post,
      trace run.2 = pre ++ (c, Rejected) :: post ->
      post = [] /\ run.1 = Threw c) /\
  map fst (trace run.2) `prefix_of` flow auth /\
  (forall p1,
      drive navigation p = (Fulfilled, p1) ->
      (drive emailWait p1).1 = Rejected ->
      run.1 = Threw emailWait /\
      trace run.2 = [(navigation, Fulfilled); (emailWait, Rejected)] /\
      Forall (fun e => isFillOrClick e.1 = false) (trace run.2)).
Proof.
  cbn zeta. pose proof (authenticate_Runs drive auth p) as H.
  split; [| split].
  - intros pre c post E. exact (Runs_rejected_last drive _ _ _ _ _ _ _ _ H E).
  - exact (Runs_calls_prefix drive _ _ _ _ _ H).
  - intros p1 Hnav Hwait.
    unfold flow in H. cbn zeta in H. cbn [app] in H.
    destruct (Runs_second_rejected drive _ _ _ _ _ _ _ _ H Hnav Hwait)
      as [-> ->].
    repeat split. repeat constructor.
Qed.

Lemma abort_on_first_failure_formless :
  (authenticate formless
     (bare "https://app.test/login" "user@app.test" "secret" (Some "supabase"))
     (start 0)).1
  = Threw (waitForSelector (Some (AuthPreset.emailSelector supabase)) 10000 None)
  /\
  trace
    (authenticate formless
       (bare "https://app.test/login" "user@app.test" "secret"
          (Some "supabase"))
       (start 0)).2
  = [ (goto "https://app.test/login" "networkidle" 30000, Fulfilled);
      (waitForSelector (Some (AuthPreset.emailSelector supabase)) 10000 None,
       Rejected) ].
Proof.
  destruct
    (proj2 (proj2 (abort_on_first_failure formless 0
                     (bare "https://app.test/login" "user@app.test" "secret"
                        (Some "supabase"))))
       1 eq_refl eq_refl) as (Hr & Ht & _).
  split; [exact Hr | exact Ht].
Defined.

(** C9.  Every stage carries its own constant timeout.  Whatever the page
    does, the run of [authenticate] is the in-order run of these calls: the
    navigation with 30 s, the email-field wait with 10 s, the fill, with
    multiStep the click and the password-field wait with 10 s, the fill,
    the submit click, and the detection call, which carries 15 s when it is
    the selector or the URL strategy and is the fixed 5 s delay only when
    neither field is set.  The arguments of the i-th call do not depend on
    the page or on how the earlier calls went: two runs of the same
    configuration, on any two pages, make the same i-th call. *)
Theorem per_step_timeouts {Page : Type}
    (drive : Call -> Page -> Outcome * Page) (p : Page)
    (auth : AuthConfig.t) :
  let sel := resolveSelectors auth in
  let run := authenticate drive auth (start p) in
  Runs drive p
    ([ goto (AuthConfig.loginUrl auth) "networkidle" 30000;
       waitForSelector (Resolved.emailSelector sel) 10000 None;
       fill (Resolved.emailSelector sel) (AuthConfig.email auth) ]
     ++ match Resolved.multiStep sel with
        | Some true =>
            [ click (Resolved.continueSelector sel
                     ||| Resolved.submitSelector sel);
              waitForSelector (Resolved.passwordSelector sel) 10000
                (Some "visible") ]
        | _ => []
        end
     ++ [ fill (Resolved.passwordSelector sel) (AuthConfig.password auth);
          click (Resolved.submitSelector sel);
          if truthy (Resolved.successSelector sel) then
            waitForSelector (Resolved.successSelector sel) 15000 None
          else
            match Resolved.successUrlPattern sel with
            | Some (String a q) => waitForURL (urlPredicate (String a q)) 15000
            | _ => waitForTimeout 5000
            end ])
    (trace run.2) run.1 (page run.2) /\
  (forall (Page' : Type) (drive' : Call -> Page' -> Outcome * Page')
          (p' : Page') (i : nat) (c c' : Call),
      map fst (trace run.2) !! i = Some c ->
      map fst (trace (authenticate drive' auth (start p')).2) !! i = Some c' ->
      c = c').
Proof.
  cbn zeta. split.
  - exact (authenticate_Runs drive auth p).
  - intros Page' drive' p' i c c' Hc Hc'.
    pose proof (Runs_calls_prefix drive _ _ _ _ _
                  (authenticate_Runs drive auth p)) as H.
    pose proof (Runs_calls_prefix drive' _ _ _ _ _
                  (authenticate_Runs drive' auth p')) as H'.
    pose proof (prefix_lookup_Some _ _ _ _ Hc H) as E.
    pose proof (prefix_lookup_Some _ _ _ _ Hc' H') as E'.
    congruence.
Qed.

Lemma per_step_timeouts_two_pages :
  map fst
    (trace
       (authenticate cooperative
          (bare "https://app.test/login" "user@app.test" "secret"
             (Some "salesforce"))
          (start tt)).2) !! 1
  = map fst
      (trace
         (authenticate formless
            (bare "https://app.test/login" "user@app.test" "secret"
               (Some "salesforce"))
            (start 0)).2) !! 1.
Proof.
  pose proof (proj2 (per_step_timeouts cooperative tt
                       (bare "https://app.test/login" "user@app.test" "secret"
                          (Some "salesforce")))
                nat formless 0 1) as H.
  cbn zeta in H.
  destruct (map fst (trace (authenticate formless _ (start 0)).2) !! 1)
    as [c' |] eqn:E.
  - rewrite <- (H (waitForSelector (Some "input#username") 10000 None) c'
                  eq_refl eq_refl).
    reflexivity.
  - vm_compute in E. discriminate E.
Defined.

(** * Further properties of the engine *)

(** ** Resolution away from the inherited names *)

Lemma row_required_fields (k : string) (p : AuthPreset.t) :
  PRESETS !! k = Some p ->
  truthy (Some (AuthPreset.emailSelector p)) = true /\
  truthy (Some (AuthPreset.passwordSelector p)) = true /\
  truthy (Some (AuthPreset.submitSelector p)) = true.
Proof.
  intros H. apply PRESETS_rows in H.
  destruct H as [[_ ->] | [[_ ->] | [[_ ->] | [_ ->]]]];
    repeat split; reflexivity.
Qed.

Lemma lookupPreset_not_inherited (name : option string) :
  (forall n, name = Some n -> n ∉ Object_prototype) ->
  exists p, lookupPreset name = Own p.
Proof.
  intros H. unfold lookupPreset, PRESETS_get.
  destruct (PRESETS !! presetKey name) as [q |] eqn:E; [eauto |].
  case_bool_decide as Hin; [| eauto].
  destruct name as [[| a n] |]; cbn [presetKey] in Hin.
  - exfalso. revert Hin. apply (bool_decide_unpack _). reflexivity.
  - destruct (H _ eq_refl Hin).
  - exfalso. revert Hin. apply (bool_decide_unpack _). reflexivity.
Qed.

Lemma js_or_truthy (o d : option string) :
  truthy d = true -> truthy (o ||| d) = true.
Proof.
  intros Hd. unfold js_or. destruct (truthy o) eqn:E; [exact E | exact Hd].
Qed.

(** Whenever the preset name is not a member of [Object.prototype], the
    selectors the flow needs and the success pattern resolve to non-empty
    strings and multiStep to a boolean, whatever the overrides are: an
    empty override cannot blank a field. *)
Theorem resolved_fields_defined (auth : AuthConfig.t) :
  (forall n, AuthConfig.preset auth = Some n -> n ∉ Object_prototype) ->
  let sel := resolveSelectors auth in
  truthy (Resolved.emailSelector sel) = true /\
  truthy (Resolved.passwordSelector sel) = true /\
  truthy (Resolved.submitSelector sel) = true /\
  truthy (Resolved.successUrlPattern sel) = true /\
  is_Some (Resolved.multiStep sel).
Proof.
  intros H. destruct (lookupPreset_not_inherited _ H) as [p E].
  destruct (lookupPreset_row _ _ E) as [k Hk].
  destruct (row_required_fields k p Hk) as (He & Hp & Hs).
  cbn. rewrite E. cbn.
  repeat split; try (apply js_or_truthy; assumption).
  - apply js_or_truthy. exact (row_successUrlPattern k p Hk).
  - destruct (AuthConfig.multiStep auth); cbn; eauto.
Qed.

Lemma resolved_fields_defined_unknown :
  let sel :=
    resolveSelectors
      {| AuthConfig.loginUrl := "https://app.test/login";
         AuthConfig.email := "user@app.test";
         AuthConfig.password := "secret";
         AuthConfig.preset := Some "Clerk";
         AuthConfig.emailSelector := Some EmptyString;
         AuthConfig.passwordSelector := None;
         AuthConfig.submitSelector := Some EmptyString;
         AuthConfig.successUrlPattern := Some EmptyString;
         AuthConfig.successSelector := None;
         AuthConfig.multiStep := None;
         AuthConfig.continueSelector := None |} in
  truthy (Resolved.emailSelector sel) = true /\
  truthy (Resolved.passwordSelector sel) = true /\
  truthy (Resolved.submitSelector sel) = true /\
  truthy (Resolved.successUrlPattern sel) = true /\
  is_Some (Resolved.multiStep sel).
Proof.
  apply resolved_fields_defined.
  intros n [= <-]. unfold Object_prototype.
  rewrite !not_elem_of_cons. repeat split; try discriminate.
  apply not_elem_of_nil.
Defined.

(** A configuration that overrides every selector, the success pattern and
    multiStep resolves to the same bundle under every preset name, the
    inherited names included. *)
Theorem resolve_full_override (auth : AuthConfig.t) (name name' : option string) :
  truthy (AuthConfig.emailSelector auth) = true ->
  truthy (AuthConfig.passwordSelector auth) = true ->
  truthy (AuthConfig.submitSelector auth) = true ->
  truthy (AuthConfig.successUrlPattern auth) = true ->
  truthy (AuthConfig.continueSelector auth) = true ->
  is_Some (AuthConfig.multiStep auth) ->
  resolveSelectors (withPreset auth name)
  = resolveSelectors (withPreset auth name').
Proof.
  intros He Hp Hs Hu Hc [b Hm]. unfold resolveSelectors, withPreset. cbn.
  unfold js_or. rewrite He, Hp, Hs, Hu, Hc, Hm. reflexivity.
Qed.

Lemma resolve_full_override_custom :
  resolveSelectors
    (withPreset
       {| AuthConfig.loginUrl := "https://crm.test/login";
          AuthConfig.email := "admin@crm.test";
          AuthConfig.password := "secret";
          AuthConfig.preset := None;
          AuthConfig.emailSelector := Some "input#username";
          AuthConfig.passwordSelector := Some "input#pw";
          AuthConfig.submitSelector := Some "input#Login";
          AuthConfig.successUrlPattern := Some "/home";
          AuthConfig.successSelector := None;
          AuthConfig.multiStep := Some false;
          AuthConfig.continueSelector := Some "button.next" |}
       (Some "clerk"))
  = resolveSelectors
      (withPreset
         {| AuthConfig.loginUrl := "https://crm.test/login";
            AuthConfig.email := "admin@crm.test";
            AuthConfig.password := "secret";
            AuthConfig.preset := None;
            AuthConfig.emailSelector := Some "input#username";
            AuthConfig.passwordSelector := Some "input#pw";
            AuthConfig.submitSelector := Some "input#Login";
            AuthConfig.successUrlPattern := Some "/home";
            AuthConfig.successSelector := None;
            AuthConfig.multiStep := Some false;
            AuthConfig.continueSelector := Some "button.next" |}
         (Some "constructor")).
Proof.
  apply resolve_full_override; cbn; eauto.
Defined.

(** ** The URL predicate *)

Lemma append_assoc (a b c : string) : (a +:+ b) +:+ c = a +:+ b +:+ c.
Proof.
  induction a as [| x a IH]; [reflexivity |].
  rewrite !append_cons, IH. reflexivity.
Qed.

Lemma contains_extend (s sub a b : string) :
  contains s sub -> contains (a +:+ s +:+ b) sub.
Proof.
  intros (x & y & ->). exists (a +:+ x), (y +:+ b).
  rewrite !append_assoc. reflexivity.
Qed.

Lemma urlPredicate_other (pattern path : string) :
  pattern <> "/" ->
  urlPredicate pattern {| pathname := path |} = includes path pattern.
Proof.
  intros Hne. unfold urlPredicate. cbn [pathname].
  destruct (String.eqb_spec pattern "/"); [contradiction | reflexivity].
Qed.

Lemma urlPredicate_root (path : string) :
  urlPredicate "/" {| pathname := path |}
  = negb (includes path "/login") && negb (includes path "/sign-in")
    && negb (includes path "/auth/").
Proof. reflexivity. Qed.

(** Matching is by substring, so it survives any extension of the path:
    under a pattern other than [/] a path that passes still passes with
    anything put before or after it, and under [/] a path that passes has
    only passing parts. *)
Theorem urlPredicate_extension (pattern path a b : string) :
  (pattern <> "/" ->
   urlPredicate pattern {| pathname := path |} = true ->
   urlPredicate pattern {| pathname := a +:+ path +:+ b |} = true) /\
  (urlPredicate "/" {| pathname := a +:+ path +:+ b |} = true ->
   urlPredicate "/" {| pathname := path |} = true).
Proof.
  split.
  - intros Hne. rewrite !(urlPredicate_other _ _ Hne), !includes_contains.
    apply contains_extend.
  - rewrite !urlPredicate_root, !andb_true_iff, !negb_true_iff,
      !includes_not_contains.
    intros [[H1 H2] H3].
    repeat split; intros H; [apply H1 | apply H2 | apply H3];
      apply contains_extend; exact H.
Qed.

Lemma urlPredicate_extension_home_office :
  urlPredicate "/home" {| pathname := "/home-office/dashboard" |} = true.
Proof.
  apply (proj1 (urlPredicate_extension "/home" "/home" EmptyString
                  "-office/dashboard")); [discriminate | reflexivity].
Defined.

(** For each row of the table, the row's own login path does not pass the
    predicate of the row's success pattern: staying on the login page is
    not taken for a successful login. *)
Theorem login_path_is_not_success (name : string) (p : AuthPreset.t) :
  PRESETS !! name = Some p ->
  urlPredicate (AuthPreset.successUrlPattern p)
    {| pathname := AuthPreset.loginPath p |} = false.
Proof.
  intros H. apply PRESETS_rows in H.
  destruct H as [[_ ->] | [[_ ->] | [[_ ->] | [_ ->]]]]; reflexivity.
Qed.

Lemma login_path_is_not_success_salesforce :
  urlPredicate "/home" {| pathname := "/login" |} = false.
Proof.
  apply (login_path_is_not_success "salesforce" salesforce). reflexivity.
Defined.

(** ** Completion of the login flow *)

Lemma Runs_all_fulfilled {Page : Type}
    (drive : Call -> Page -> Outcome * Page) p cs tr r p' :
  Runs drive p cs tr r p' ->
  Forall (fun e => e.2 = Fulfilled) tr -> map fst tr = cs -> r = Returned.
Proof.
  induction 1 as [p | p c cs p1 tr r p' Hd _ IH | p c cs p' Hd];
    intros Hall Hcs.
  - reflexivity.
  - apply IH.
    + inversion Hall; assumption.
    + cbn in Hcs. congruence.
  - inversion Hall as [| ? ? Hrej _]. discriminate Hrej.
Qed.

(** [authenticate] returns normally exactly when it has made every call of
    the flow, success detection included, and each one was fulfilled. *)
Theorem authenticate_returns_iff {Page : Type}
    (drive : Call -> Page -> Outcome * Page) (p : Page)
    (auth : AuthConfig.t) :
  (authenticate drive auth (start p)).1 = Returned <->
  map fst (trace (authenticate drive auth (start p)).2) = flow auth /\
  Forall (fun e => e.2 = Fulfilled)
    (trace (authenticate drive auth (start p)).2).
Proof.
  pose proof (authenticate_Runs drive auth p) as H. split.
  - intros Hr. rewrite (Runs_returned drive _ _ _ _ _ H Hr).
    generalize (flow auth). intros cs. split.
    + induction cs as [| c cs IH]; [reflexivity |]. cbn. congruence.
    + induction cs as [| c cs IH]; constructor; [reflexivity | exact IH].
  - intros [Hcs Hall]. exact (Runs_all_fulfilled drive _ _ _ _ _ H Hall Hcs).
Qed.

(** * Properties of the screenshot function *)

Lemma Runs_shape {Page : Type}
    (drive : Call -> Page -> Outcome * Page) p cs tr r p' :
  Runs drive p cs tr r p' ->
  match r with
  | Returned => Forall (fun e => e.2 = Fulfilled) tr
  | Threw c =>
      exists pre,
        tr = pre ++ [(c, Rejected)] /\
        Forall (fun e => e.2 = Fulfilled) pre
  end.
Proof.
  induction 1 as [p | p c cs p1 tr r p' Hd _ IH | p c cs p' Hd].
  - constructor.
  - destruct r as [| c'].
    + constructor; [reflexivity | exact IH].
    + destruct IH as (pre & -> & Hpre).
      exists ((c, Fulfilled) :: pre). split; [reflexivity |].
      constructor; [reflexivity | exact Hpre].
  - exists []. split; [reflexivity | constructor].
Qed.

Section CaptureFacts.
Context {World : Type}.
Variable world : Op -> World -> Outcome * World.
Variable shot : World -> Buffer.
Variable pageUrl : World -> string.

Lemma Orderly_pure {A : Type} (a : A) : Orderly (pure (World := World) a).
Proof. intros j. exists []. cbn. rewrite app_nil_r. split; constructor. Qed.

Lemma Orderly_throwless_inspect {A : Type} (f : World -> A) :
  Orderly (inspect f).
Proof. intros j. exists []. cbn. rewrite app_nil_r. split; constructor. Qed.

Lemma Orderly_perform (op : Op) : Orderly (perform world op).
Proof.
  intros j. unfold perform.
  destruct (world op (world_state j)) as [[|] w1]; cbn.
  - exists [(op, Fulfilled)]. split; [reflexivity |].
    constructor; [reflexivity | constructor].
  - exists [(op, Rejected)]. split; [reflexivity |].
    exists []. split; [reflexivity | constructor].
Qed.

Lemma Orderly_bind {A B : Type} (m : Task World A) (k : A -> Task World B) :
  Orderly m -> (forall a, Orderly (k a)) -> Orderly (bind m k).
Proof.
  intros Hm Hk j. unfold bind.
  destruct (Hm j) as (e1 & Hl1 & H1).
  destruct (m j) as [[a | op] j1]; cbn [fst snd] in *.
  - destruct (Hk a j1) as (e2 & Hl2 & H2).
    exists (e1 ++ e2). split.
    + rewrite Hl2, Hl1, app_assoc. reflexivity.
    + destruct (k a j1).1 as [b | op].
      * apply Forall_app. split; assumption.
      * destruct H2 as (pre & -> & Hpre). exists (e1 ++ pre).
        split; [apply app_assoc |]. apply Forall_app. split; assumption.
  - exists e1. split; assumption.
Qed.

Lemma Orderly_authenticateOn (auth : AuthConfig.t) :
  Orderly (authenticateOn world auth).
Proof.
  intros j. unfold authenticateOn.
  pose proof (Runs_shape _ _ _ _ _ _
                (authenticate_Runs (fun c => world (onPage c)) auth
                   (world_state j))) as H.
  set (r := authenticate _ auth (start (world_state j))) in *.
  exists (map (fun e => (onPage e.1, e.2)) (trace r.2)).
  destruct r.1 as [| c]; cbn [fst snd log]; (split; [reflexivity |]).
  - apply Forall_map. exact H.
  - destruct H as (pre & -> & Hpre).
    exists (map (fun e => (onPage e.1, e.2)) pre). split.
    + rewrite map_app. reflexivity.
    + apply Forall_map. exact Hpre.
Qed.

Lemma Orderly_capture options width height timeout :
  Orderly (capture world shot pageUrl options width height timeout).
Proof.
  unfold capture.
  repeat first
    [ apply Orderly_bind; [| intros ?]
    | apply Orderly_perform
    | apply Orderly_pure
    | apply Orderly_throwless_inspect
    | apply Orderly_authenticateOn
    | match goal with
      | |- Orderly (match ?x with _ => _ end) => destruct x
      end ].
Qed.

Lemma screenshot_launch (options : ScreenshotOptions.t) (w : World) :
  screenshot world shot pageUrl options (begin w)
  = match world launchOptions w with
    | (Fulfilled, w1) =>
        tryCatch
          (capture world shot pageUrl options
             (num_or (ScreenshotOptions.width options) 1280)
             (num_or (ScreenshotOptions.height options) 720)
             (num_or (ScreenshotOptions.timeout options) 30000))
          (cleanup world)
          {| world_state := w1; log := [(launchOptions, Fulfilled)] |}
    | (Rejected, w1) =>
        (Thrown launchOptions,
         {| world_state := w1; log := [(launchOptions, Rejected)] |})
    end.
Proof.
  unfold screenshot, bind, perform, begin. cbn [world_state log app].
  destruct (world launchOptions w) as [[|] w1]; reflexivity.
Qed.

(** After the first rejection the one further operation is a single
    [browser.close()] (none when it was the launch that failed); if that
    close is itself rejected, its rejection is thrown in place of the
    original one.  A run that settles with a result has no rejected
    operation at all. *)
Theorem screenshot_failure_shape (options : ScreenshotOptions.t) (w : World) :
  match (screenshot world shot pageUrl options (begin w)).1 with
  | Value _ =>
      Forall (fun e => e.2 = Fulfilled)
        (log (screenshot world shot pageUrl options (begin w)).2)
  | Thrown err =>
      (log (screenshot world shot pageUrl options (begin w)).2
       = [(launchOptions, Rejected)] /\ err = launchOptions) \/
      (exists pre op o,
          log (screenshot world shot pageUrl options (begin w)).2
          = (launchOptions, Fulfilled) :: pre
            ++ [(op, Rejected); (browser_close, o)] /\
          Forall (fun e => e.2 = Fulfilled) pre /\
          err = match o with Fulfilled => op | Rejected => browser_close end)
  end.
Proof.
  rewrite screenshot_launch.
  destruct (world launchOptions w) as [[|] w1]; cbn [fst snd];
    [| left; split; reflexivity].
  unfold tryCatch.
  set (j1 := {| world_state := w1; log := [(launchOptions, Fulfilled)] |}).
  destruct (Orderly_capture options
              (num_or (ScreenshotOptions.width options) 1280)
              (num_or (ScreenshotOptions.height options) 720)
              (num_or (ScreenshotOptions.timeout options) 30000) j1)
    as (ext & Hlog & Hext).
  destruct (capture world shot pageUrl options _ _ _ j1) as [[r | err] j2];
    cbn [fst snd] in *.
  - rewrite Hlog. subst j1. cbn [log app].
    constructor; [reflexivity | exact Hext].
  - destruct Hext as (pre & -> & Hpre).
    unfold cleanup, bind, perform, throw.
    destruct (world browser_close (world_state j2)) as [[|] w3];
      cbn [fst snd log]; right; rewrite Hlog; subst j1; cbn [log app].
    + exists pre, err, Fulfilled. rewrite <- !app_assoc. auto.
    + exists pre, err, Rejected. rewrite <- !app_assoc. auto.
Qed.

(** ** Inversion of a task that settled with a value *)

Lemma bind_Value {A B : Type} (m : Task World A) (k : A -> Task World B)
    j b j' :
  bind m k j = (Value b, j') ->
  exists a j1, m j = (Value a, j1) /\ k a j1 = (Value b, j').
Proof.
  unfold bind. destruct (m j) as [[a | op] j1]; [eauto | discriminate].
Qed.

Lemma perform_Value (op : Op) j u j' :
  perform world op j = (Value u, j') ->
  log j' = log j ++ [(op, Fulfilled)].
Proof.
  unfold perform. destruct (world op (world_state j)) as [[|] w1]; cbn;
    [| discriminate].
  intros [= _ <-]. reflexivity.
Qed.

Lemma pure_Value {A : Type} (a : A) (j : Job World) b j' :
  pure a j = (Value b, j') -> b = a /\ j' = j.
Proof. intros [= <- <-]. auto. Qed.

Lemma inspect_Value {A : Type} (f : World -> A) j b j' :
  inspect f j = (Value b, j') -> b = f (world_state j) /\ j' = j.
Proof. intros [= <- <-]. auto. Qed.

Lemma authenticateOn_Value (auth : AuthConfig.t) j u j' :
  authenticateOn world auth j = (Value u, j') ->
  log j' = log j ++ map (fun op => (op, Fulfilled)) (map onPage (flow auth)).
Proof.
  unfold authenticateOn.
  pose proof (authenticate_Runs (fun c => world (onPage c)) auth
                (world_state j)) as H.
  set (r := authenticate _ auth (start (world_state j))) in *.
  destruct r.1 as [| c] eqn:E; [| discriminate].
  intros [= _ <-]. cbn [log].
  rewrite (Runs_returned _ _ _ _ _ _ H eq_refl), !map_map. reflexivity.
Qed.

Lemma bind_perform_fulfilled {B : Type} (op : Op) (k : unit -> Task World B)
    j w' :
  world op (world_state j) = (Fulfilled, w') ->
  bind (perform world op) k j
  = k tt {| world_state := w'; log := log j ++ [(op, Fulfilled)] |}.
Proof. intros H. unfold bind, perform. rewrite H. reflexivity. Qed.

Lemma bind_Thrown {A B : Type} (m : Task World A) (k : A -> Task World B)
    j e j1 :
  m j = (Thrown e, j1) -> bind m k j = (Thrown e, j1).
Proof. intros H. unfold bind. rewrite H. reflexivity. Qed.

Lemma authenticateOn_Thrown (auth : AuthConfig.t) j c :
  (authenticate (fun c => world (onPage c)) auth (start (world_state j))).1
  = Threw c ->
  authenticateOn world auth j
  = (Thrown (onPage c),
     {| world_state :=
          page (authenticate (fun c => world (onPage c)) auth
                  (start (world_state j))).2;
        log :=
          log j
          ++ map (fun e => (onPage e.1, e.2))
               (trace (authenticate (fun c => world (onPage c)) auth
                         (start (world_state j))).2) |}).
Proof. intros H. unfold authenticateOn. rewrite H. reflexivity. Qed.

Lemma cleanup_throws (err : Op) j :
  exists e, (cleanup world err j).1 = Thrown e.
Proof.
  unfold cleanup, bind, perform, throw.
  destruct (world browser_close (world_state j)) as [[|] w1]; cbn; eauto.
Qed.

(** The [try] block that settles with a value has made the operations of
    [captureOps], then the write of the captured bytes when an output path
    was given, each fulfilled. *)
Lemma capture_Value (options : ScreenshotOptions.t) j r j' :
  capture world shot pageUrl options
    (num_or (ScreenshotOptions.width options) 1280)
    (num_or (ScreenshotOptions.height options) 720)
    (num_or (ScreenshotOptions.timeout options) 30000) j
  = (Value r, j') ->
  log j'
  = log j
    ++ map (fun op => (op, Fulfilled))
         (captureOps options
          ++ match ScreenshotOptions.output options with
             | Some (String a o) =>
                 [writeFileSync (String a o) (ScreenshotResult.buffer r)]
             | _ => []
             end) /\
  ScreenshotResult.path r = ScreenshotOptions.output options /\
  ScreenshotResult.authenticated r
  = match ScreenshotOptions.auth options with
    | Some _ => true
    | None => false
    end /\
  ScreenshotResult.dimensions r
  = (num_or (ScreenshotOptions.width options) 1280,
     num_or (ScreenshotOptions.height options) 720).
Proof.
  unfold capture, captureOps. intros H.
  apply bind_Value in H as (u1 & j1 & H1 & H). apply perform_Value in H1.
  apply bind_Value in H as (u2 & j2 & H2 & H). apply perform_Value in H2.
  apply bind_Value in H as (authd & j3 & H3 & H).
  assert (Hauth : authd = match ScreenshotOptions.auth options with
                          | Some _ => true
                          | None => false
                          end /\
                  log j3 = log j2
                    ++ map (fun op => (op, Fulfilled))
                         match ScreenshotOptions.auth options with
                         | Some auth => map onPage (flow auth)
                         | None => []
                         end).
  { destruct (ScreenshotOptions.auth options) as [auth |].
    - apply bind_Value in H3 as (u & j2' & Ha & Hp).
      apply authenticateOn_Value in Ha. apply pure_Value in Hp as [-> ->].
      auto.
    - apply pure_Value in H3 as [-> ->]. cbn. rewrite app_nil_r. auto. }
  destruct Hauth as [-> H3'].
  apply bind_Value in H as (u4 & j4 & H4 & H). apply perform_Value in H4.
  apply bind_Value in H as (u5 & j5 & H5 & H).
  assert (H5' : log j5 = log j4
                  ++ map (fun op => (op, Fulfilled))
                       (if truthy (ScreenshotOptions.waitFor options) then
                          [onPage (waitForSelector
                                     (ScreenshotOptions.waitFor options)
                                     10000 None)]
                        else [])).
  { destruct (truthy (ScreenshotOptions.waitFor options)).
    - apply perform_Value in H5. exact H5.
    - apply pure_Value in H5 as [_ ->]. cbn. rewrite app_nil_r. reflexivity. }
  cbn zeta in H.
  apply bind_Value in H as (u6 & j6 & H6 & H).
  assert (H6' : log j6 = log j5
                  ++ map (fun op => (op, Fulfilled))
                       match ScreenshotOptions.delay options with
                       | Some d =>
                           if (0 <? d)%Z then [onPage (waitForTimeout d)]
                           else []
                       | None =>
                           match ScreenshotOptions.auth options with
                           | Some _ => [onPage (waitForTimeout 2000)]
                           | None => []
                           end
                       end).
  { destruct (ScreenshotOptions.delay options) as [d |].
    - destruct (0 <? d)%Z.
      + apply perform_Value in H6. exact H6.
      + apply pure_Value in H6 as [_ ->]. cbn. rewrite app_nil_r.
        reflexivity.
    - destruct (ScreenshotOptions.auth options); cbn in H6.
      + apply perform_Value in H6. exact H6.
      + apply pure_Value in H6 as [_ ->]. cbn. rewrite app_nil_r.
        reflexivity. }
  apply bind_Value in H as (u7 & j7 & H7 & H). apply perform_Value in H7.
  apply bind_Value in H as (buf & j8 & H8 & H).
  apply inspect_Value in H8 as [-> ->].
  apply bind_Value in H as (final & j9 & H9 & H).
  apply inspect_Value in H9 as [-> ->].
  apply bind_Value in H as (u10 & j10 & H10 & H). apply perform_Value in H10.
  apply bind_Value in H as (u11 & j11 & H11 & H).
  apply pure_Value in H as [-> ->].
  cbn [ScreenshotResult.buffer ScreenshotResult.path
       ScreenshotResult.authenticated ScreenshotResult.dimensions].
  repeat split.
  assert (H11' : log j11 = log j10
                   ++ map (fun op => (op, Fulfilled))
                        match ScreenshotOptions.output options with
                        | Some (String a o) =>
                            [writeFileSync (String a o)
                               (shot (world_state j7))]
                        | _ => []
                        end).
  { destruct (ScreenshotOptions.output options) as [[| a o] |].
    - apply pure_Value in H11 as [_ ->]. cbn. rewrite app_nil_r. reflexivity.
    - apply perform_Value in H11. exact H11.
    - apply pure_Value in H11 as [_ ->]. cbn. rewrite app_nil_r. reflexivity. }
  rewrite H11', H10, H7, H6', H5', H4, H3', H2, H1.
  rewrite !map_app, <- !app_assoc. reflexivity.
Qed.

(** A run that settles with a result made exactly these operations, all
    fulfilled: launch, the viewport (1280 x 720 where a side is absent or
    0), the page, the login flow when [auth] is given, the navigation, the
    optional wait and delay (2000 ms after a login when no delay is given,
    none for a delay that is not positive), the capture, the closing of
    the browser and only then the write of the captured bytes; and the
    result reports the viewport used, whether it logged in, and the output
    path as given. *)
Theorem screenshot_success (options : ScreenshotOptions.t) (w : World)
    (r : ScreenshotResult.t) (j' : Job World) :
  screenshot world shot pageUrl options (begin w) = (Value r, j') ->
  log j'
  = map (fun op => (op, Fulfilled))
      (launchOptions
       :: captureOps options
       ++ match ScreenshotOptions.output options with
          | Some (String a o) =>
              [writeFileSync (String a o) (ScreenshotResult.buffer r)]
          | _ => []
          end) /\
  ScreenshotResult.path r = ScreenshotOptions.output options /\
  ScreenshotResult.authenticated r
  = match ScreenshotOptions.auth options with
    | Some _ => true
    | None => false
    end /\
  ScreenshotResult.dimensions r
  = (num_or (ScreenshotOptions.width options) 1280,
     num_or (ScreenshotOptions.height options) 720).
Proof.
  rewrite screenshot_launch.
  destruct (world launchOptions w) as [[|] w1]; [| discriminate].
  unfold tryCatch.
  destruct (capture world shot pageUrl options _ _ _ _) as [[r' | err] j2]
    eqn:E.
  - intros [= <- <-]. apply capture_Value in E. exact E.
  - intros H. destruct (cleanup_throws err j2) as [e He].
    rewrite H in He. discriminate He.
Qed.

(** Once the browser is launched it is closed, however the run goes. *)
Theorem browser_closed_after_launch (options : ScreenshotOptions.t)
    (w : World) :
  (world launchOptions w).1 = Fulfilled ->
  exists o,
    In (browser_close, o)
      (log (screenshot world shot pageUrl options (begin w)).2).
Proof.
  intros Hl. rewrite screenshot_launch.
  destruct (world launchOptions w) as [[|] w1]; [| discriminate Hl].
  unfold tryCatch.
  destruct (capture world shot pageUrl options _ _ _ _) as [[r' | err] j2]
    eqn:E.
  - exists Fulfilled. apply capture_Value in E as (E & _).
    cbn [snd]. rewrite E. apply in_or_app. right.
    apply (in_map (fun op => (op, Fulfilled))). apply in_or_app. left.
    unfold captureOps. rewrite !app_assoc. apply in_or_app. right.
    right. left. reflexivity.
  - unfold cleanup, bind, perform, throw.
    destruct (world browser_close (world_state j2)) as [[|] w3];
      cbn [fst snd log]; eexists; apply in_or_app; right; left; reflexivity.
Qed.

(** When the login flow throws, the run ends there: after the calls of
    the login flow the one operation left is the closing of the browser,
    so the target page is not loaded and nothing is captured or written. *)
Theorem failed_login_stops_run (options : ScreenshotOptions.t)
    (auth : AuthConfig.t) (w w1 w2 w3 : World) (c : Call) :
  ScreenshotOptions.auth options = Some auth ->
  world launchOptions w = (Fulfilled, w1) ->
  world (newContext (num_or (ScreenshotOptions.width options) 1280)
           (num_or (ScreenshotOptions.height options) 720)) w1
  = (Fulfilled, w2) ->
  world newPage w2 = (Fulfilled, w3) ->
  (authenticate (fun c => world (onPage c)) auth (start w3)).1 = Threw c ->
  exists o,
    log (screenshot world shot pageUrl options (begin w)).2
    = [ (launchOptions, Fulfilled);
        (newContext (num_or (ScreenshotOptions.width options) 1280)
           (num_or (ScreenshotOptions.height options) 720), Fulfilled);
        (newPage, Fulfilled) ]
      ++ map (fun e => (onPage e.1, e.2))
           (trace (authenticate (fun c => world (onPage c)) auth
                     (start w3)).2)
      ++ [(browser_close, o)] /\
    (screenshot world shot pageUrl options (begin w)).1
    = Thrown match o with
             | Fulfilled => onPage c
             | Rejected => browser_close
             end.
Proof.
  intros Ha Hl Hc Hp Hlogin. rewrite screenshot_launch, Hl.
  unfold tryCatch, capture.
  rewrite (bind_perform_fulfilled _ _ _ w2) by exact Hc.
  rewrite (bind_perform_fulfilled _ _ _ w3) by exact Hp.
  rewrite Ha.
  erewrite bind_Thrown;
    [| apply bind_Thrown, authenticateOn_Thrown; exact Hlogin].
  unfold cleanup, bind, perform, throw. cbn [world_state log].
  destruct (world browser_close _) as [[|] w5]; cbn [fst snd log].
  - exists Fulfilled. split; [| reflexivity].
    cbn [app]. rewrite <- ?app_assoc. reflexivity.
  - exists Rejected. split; [| reflexivity].
    cbn [app]. rewrite <- ?app_assoc. reflexivity.
Qed.

End CaptureFacts.

Lemma screenshot_success_sample :
  log (screenshot obliging png (fun _ => "https://app.test/dashboard")
         sampleOptions (begin tt)).2
  = map (fun op => (op, Fulfilled))
      (launchOptions
       :: captureOps sampleOptions ++ [writeFileSync "out.png" (png tt)]) /\
  ScreenshotResult.dimensions
    match (screenshot obliging png (fun _ => "https://app.test/dashboard")
             sampleOptions (begin tt)).1 with
    | Value r => r
    | Thrown _ => ScreenshotResult.mk [] None false EmptyString (0, 0)%Z
    end
  = (1280, 720)%Z.
Proof.
  pose proof (screenshot_success obliging png
                (fun _ => "https://app.test/dashboard") sampleOptions tt
                _ _ eq_refl) as (Hlog & _ & _ & Hdim).
  split; [exact Hlog | exact Hdim].
Defined.

Lemma browser_closed_after_launch_offline :
  exists o,
    In (browser_close, o)
      (log (screenshot offline (fun _ => []) (fun _ => EmptyString)
              sampleOptions (begin 0)).2).
Proof.
  apply (browser_closed_after_launch offline). reflexivity.
Defined.

Lemma failed_login_stops_run_offline :
  exists o,
    log (screenshot offline (fun _ => []) (fun _ => EmptyString)
           sampleOptions (begin 0)).2
    = [ (launchOptions, Fulfilled);
        (newContext 1280 720, Fulfilled);
        (newPage, Fulfilled);
        (onPage (goto "https://app.test/login" "networkidle" 30000),
         Rejected);
        (browser_close, o) ].
Proof.
  destruct (failed_login_stops_run offline (fun _ => []) (fun _ => EmptyString)
              sampleOptions
              (bare "https://app.test/login" "user@app.test" "secret"
                 (Some "supabase"))
              0 1 2 3 (goto "https://app.test/login" "networkidle" 30000)
              eq_refl eq_refl eq_refl eq_refl eq_refl) as (o & Hlog & _).
  exists o. exact Hlog.
Defined.

(** * Properties of the command-line parser *)

(** ** Option names *)

Lemma isLower_not_dash (c : ascii) :
  isLower c = true -> Ascii.eqb c "-" = false.
Proof.
  intros H. destruct (Ascii.eqb_spec c "-") as [-> |]; [| reflexivity].
  discriminate H.
Qed.

Lemma camelCase_cons_other (c : ascii) (s : string) :
  Ascii.eqb c "-" = false -> camelCase (String c s) = String c (camelCase s).
Proof.
  intros H. cbn [camelCase]. rewrite H. destruct s; reflexivity.
Qed.

Lemma camelCase_dash_lower (d : ascii) (s : string) :
  isLower d = true ->
  camelCase (String "-" (String d s)) = String (toUpperCase d) (camelCase s).
Proof. intros H. cbn [camelCase]. rewrite H. reflexivity. Qed.

Lemma camelCase_lower_append (w t : string) :
  Forall (fun c => isLower c = true) (list_ascii_of_string w) ->
  camelCase (w +:+ t) = w +:+ camelCase t.
Proof.
  induction w as [| c w IH]; intros H; [reflexivity |].
  cbn [list_ascii_of_string] in H. inversion H as [| ? ? Hc Hw]; subst.
  rewrite !append_cons, camelCase_cons_other by (apply isLower_not_dash, Hc).
  rewrite IH by exact Hw. reflexivity.
Qed.

Lemma camelCase_words (ws : list string) :
  Forall lowerWord ws ->
  camelCase (joinWords (map (String.append "-") ws))
  = joinWords (map capitalize ws).
Proof.
  induction 1 as [| x ws [Hne Hx] _ IH]; [reflexivity |].
  cbn [map joinWords foldr]. fold (joinWords (map (String.append "-") ws)).
  fold (joinWords (map capitalize ws)).
  destruct x as [| c x]; [contradiction |].
  cbn [list_ascii_of_string] in Hx. inversion Hx as [| ? ? Hc Hw]; subst.
  change ("-" +:+ String c x) with (String "-" (String c x)).
  rewrite !append_cons, camelCase_dash_lower by exact Hc.
  rewrite camelCase_lower_append by exact Hw.
  rewrite IH. reflexivity.
Qed.

Lemma stripDashes_two (c : ascii) (s : string) :
  Ascii.eqb c "-" = false ->
  stripDashes (String "-" (String "-" (String c s))) = String c s.
Proof. intros H. cbn. rewrite H. reflexivity. Qed.

(** An option written in kebab case, two dashes and lower-case words joined
    by dashes, is stored under the camel-case key: the first word followed
    by the other words, each with its first letter in upper case. *)
Theorem optionKey_kebab (w : string) (ws : list string) :
  lowerWord w -> Forall lowerWord ws ->
  optionKey (kebab w ws) = w +:+ joinWords (map capitalize ws).
Proof.
  intros [Hne Hw] Hws. unfold optionKey, kebab.
  destruct w as [| c w]; [contradiction |].
  assert (Hc : Ascii.eqb c "-" = false).
  { cbn [list_ascii_of_string] in Hw. inversion Hw; subst.
    apply isLower_not_dash. assumption. }
  change ("--" +:+ String c w +:+ ?t)
    with (String "-" (String "-" (String c w +:+ t))).
  rewrite append_cons, stripDashes_two by exact Hc.
  rewrite <- append_cons, camelCase_lower_append by exact Hw.
  rewrite camelCase_words by exact Hws. reflexivity.
Qed.

Lemma optionKey_kebab_success_url_pattern :
  optionKey "--success-url-pattern" = "successUrlPattern".
Proof.
  apply (optionKey_kebab "success" ["url"; "pattern"]).
  - split; [discriminate | repeat constructor].
  - repeat constructor; discriminate.
Defined.

(** ** The loop *)

Lemma parseLoop_last arg args positional :
  parseLoop [arg] args positional = (parseStep arg None args positional).1.
Proof.
  cbn [parseLoop]. destruct (parseStep arg None args positional) as [[a p] b].
  reflexivity.
Qed.

Lemma parseLoop_cons arg next rest args positional :
  parseLoop (arg :: next :: rest) args positional
  = if (parseStep arg (Some next) args positional).2 then
      parseLoop rest (parseStep arg (Some next) args positional).1.1
        (parseStep arg (Some next) args positional).1.2
    else
      parseLoop (next :: rest) (parseStep arg (Some next) args positional).1.1
        (parseStep arg (Some next) args positional).1.2.
Proof.
  change (parseLoop (arg :: next :: rest) args positional)
    with (let '(args', positional', advanced) :=
            parseStep arg (Some next) args positional in
          if advanced then parseLoop rest args' positional'
          else parseLoop (next :: rest) args' positional').
  destruct (parseStep arg (Some next) args positional) as [[a p] b].
  reflexivity.
Qed.

(** A property of [args] and [positional] that every turn of the loop
    keeps holds when the loop ends. *)
Lemma parseLoop_invariant
    (I : gmap string RawValue -> list string -> Prop) :
  (forall arg next args positional,
      I args positional ->
      I (parseStep arg next args positional).1.1
        (parseStep arg next args positional).1.2) ->
  forall argv args positional,
    I args positional ->
    I (parseLoop argv args positional).1 (parseLoop argv args positional).2.
Proof.
  intros Hstep argv.
  assert (H : forall n argv, length argv <= n ->
              forall args positional,
                I args positional ->
                I (parseLoop argv args positional).1
                  (parseLoop argv args positional).2).
  { clear argv. induction n as [| n IH]; intros argv Hlen args positional HI.
    - destruct argv; [exact HI | cbn in Hlen; lia].
    - destruct argv as [| arg [| next rest]]; [exact HI | |].
      + rewrite parseLoop_last. apply Hstep, HI.
      + rewrite parseLoop_cons. cbn [length] in Hlen.
        specialize (Hstep arg (Some next) args positional HI).
        destruct (parseStep arg (Some next) args positional).2;
          apply IH; try exact Hstep; cbn [length]; lia. }
  intros args positional. apply (H (length argv)). lia.
Qed.

Lemma truthy_Some_default (next : option string) :
  truthy next = true ->
  default EmptyString next <> EmptyString /\
  next = Some (default EmptyString next).
Proof. destruct next as [[| a s] |]; cbn; try discriminate. auto. Qed.

Lemma wellStored_insert key v args positional :
  wellStored args positional ->
  (forall s, v = Text s ->
     s <> EmptyString /\ (startsWithDash s = true -> key = "output")) ->
  wellStored (<[key := v]> args) positional.
Proof.
  intros [Ha Hp] Hv. split; [| exact Hp].
  intros k s. rewrite lookup_insert_Some.
  intros [[<- E] | [_ E]]; [apply Hv, E | apply (Ha _ _ E)].
Qed.

Lemma wellStored_setProp key v args positional :
  wellStored args positional ->
  (forall s, v = Text s ->
     s <> EmptyString /\ (startsWithDash s = true -> key = "output")) ->
  wellStored (setProp key v args) positional.
Proof.
  intros H Hv. unfold setProp.
  destruct (String.eqb key "__proto__"); [exact H |].
  apply wellStored_insert; assumption.
Qed.

Lemma parseStep_wellStored arg next args positional :
  wellStored args positional ->
  wellStored (parseStep arg next args positional).1.1
    (parseStep arg next args positional).1.2.
Proof.
  intros H. unfold parseStep.
  destruct (String.eqb arg "--help" || String.eqb arg "-h").
  { apply wellStored_insert; [exact H | discriminate]. }
  destruct (String.eqb arg "-o" && truthy next) eqn:Eo.
  { apply andb_true_iff in Eo as [_ Et].
    destruct (truthy_Some_default _ Et) as [Hne _].
    apply wellStored_insert; [exact H |]. intros s [= <-]. auto. }
  destruct (String.eqb arg "--full-page").
  { apply wellStored_insert; [exact H | discriminate]. }
  destruct (String.eqb arg "--multi-step").
  { apply wellStored_insert; [exact H | discriminate]. }
  destruct (startsWithDash arg) eqn:Ed; cbn zeta.
  - destruct (truthy next && negb (startsWithDash (default EmptyString next)))
      eqn:Ev; cbn [fst snd].
    + apply andb_true_iff in Ev as [Et Hnd].
      apply negb_true_iff in Hnd.
      destruct (truthy_Some_default _ Et) as [Hne _].
      apply wellStored_setProp; [exact H |]. intros s [= <-].
      split; [exact Hne | congruence].
    + apply wellStored_setProp; [exact H | discriminate].
  - cbn [fst snd]. destruct H as [Ha Hp]. split; [exact Ha |].
    apply Forall_app. split; [exact Hp |]. constructor; [exact Ed | constructor].
Qed.

Lemma parseLoop_wellStored argv :
  wellStored (parseLoop argv ∅ []).1 (parseLoop argv ∅ []).2.
Proof.
  apply (parseLoop_invariant wellStored).
  - intros. apply parseStep_wellStored. assumption.
  - split; [| constructor]. intros key s. rewrite lookup_empty. discriminate.
Qed.

(** The positional arguments are appended to: what was there stays in
    front. *)
Lemma parseLoop_positional argv args positional :
  exists more, (parseLoop argv args positional).2 = positional ++ more.
Proof.
  apply (parseLoop_invariant (fun _ p => exists more, p = positional ++ more)).
  - intros arg next a p [more ->]. unfold parseStep.
    repeat match goal with
           | |- context [if ?b then _ else _] => destruct b
           end; cbn [fst snd]; eauto.
    exists (more ++ [arg]). rewrite app_assoc. reflexivity.
  - exists []. rewrite app_nil_r. reflexivity.
Qed.

Lemma not_dash_not_option (arg : string) :
  startsWithDash arg = false ->
  forall next args positional,
    parseStep arg next args positional = (args, positional ++ [arg], false).
Proof.
  intros H next args positional. unfold parseStep.
  assert (forall o, startsWithDash o = true -> String.eqb arg o = false) as E.
  { intros o Ho. destruct (String.eqb_spec arg o) as [-> |]; congruence. }
  rewrite !E by reflexivity. cbn [orb andb]. rewrite H. reflexivity.
Qed.

Lemma flag_step (arg : string) :
  isFlagArg arg ->
  forall next args positional,
    exists args',
      parseStep arg next args positional = (args', positional, false).
Proof.
  intros [-> | [-> | [-> | ->]]] next args positional; unfold parseStep;
    cbn; eauto.
Qed.

Lemma parseLoop_flags flags arg rest args :
  Forall isFlagArg flags ->
  exists args', parseLoop (flags ++ arg :: rest) args []
                = parseLoop (arg :: rest) args' [].
Proof.
  intros H. revert args. induction H as [| f flags Hf _ IH]; intros args.
  - eauto.
  - destruct (IH args) as [a0 _].
    assert (exists next tl, flags ++ arg :: rest = next :: tl) as (n & tl & E).
    { destruct flags; cbn; eauto. }
    cbn [app]. rewrite E, parseLoop_cons.
    destruct (flag_step f Hf (Some n) args []) as [a' ->]. cbn [fst snd].
    rewrite <- E. apply IH.
Qed.

Section CliFacts.
Context {Number : Type}.
Variable parseInt : string -> Number.

Lemma parseNumber_lookup_ne raw k (args : gmap string (ArgValue Number)) key :
  key <> k -> parseNumber parseInt raw k args !! key = args !! key.
Proof.
  intros Hne. unfold parseNumber. destruct (raw !! k) as [v |]; [| reflexivity].
  destruct (truthyRaw v); [| reflexivity].
  apply lookup_insert_ne. congruence.
Qed.

Lemma parseNumber_lookup_eq raw k (args : gmap string (ArgValue Number)) :
  args !! k = ofRaw <$> raw !! k ->
  parseNumber parseInt raw k args !! k
  = (fun v => if truthyRaw v then ANum (parseInt (rawString v)) else ofRaw v)
      <$> raw !! k.
Proof.
  intros Hk. unfold parseNumber. destruct (raw !! k) as [v |]; [| exact Hk].
  cbn. destruct (truthyRaw v); [apply lookup_insert_eq | exact Hk].
Qed.

(** What [parseArgs] returns under a key, from what the loop left: the
    first positional argument under [url], the parsed number under a
    numeric key, and otherwise the stored value. *)
Lemma parseArgs_lookup argv key :
  parseArgs parseInt argv !! key
  = (fun v =>
       if truthyRaw v && bool_decide (key ∈ numericKeys) then
         ANum (parseInt (rawString v))
       else ofRaw v)
      <$> match (parseLoop argv ∅ []).2 with
          | url :: _ => <["url" := Text url]> (parseLoop argv ∅ []).1
          | [] => (parseLoop argv ∅ []).1
          end !! key.
Proof.
  unfold parseArgs. destruct (parseLoop argv ∅ []) as [args positional].
  cbn [fst snd]. cbn zeta.
  set (raw := match positional with
              | url :: _ => <["url" := Text url]> args
              | [] => args
              end).
  unfold numericKeys.
  destruct (decide (key = "delay")) as [-> | Hd].
  { rewrite parseNumber_lookup_eq.
    - destruct (raw !! "delay") as [v |]; [| reflexivity]. cbn.
      rewrite andb_true_r. reflexivity.
    - rewrite !parseNumber_lookup_ne by discriminate. apply lookup_fmap. }
  rewrite parseNumber_lookup_ne by exact Hd.
  destruct (decide (key = "timeout")) as [-> | Ht].
  { rewrite parseNumber_lookup_eq.
    - destruct (raw !! "timeout") as [v |]; [| reflexivity]. cbn.
      rewrite andb_true_r. reflexivity.
    - rewrite !parseNumber_lookup_ne by discriminate. apply lookup_fmap. }
  rewrite parseNumber_lookup_ne by exact Ht.
  destruct (decide (key = "height")) as [-> | Hh].
  { rewrite parseNumber_lookup_eq.
    - destruct (raw !! "height") as [v |]; [| reflexivity]. cbn.
      rewrite andb_true_r. reflexivity.
    - rewrite !parseNumber_lookup_ne by discriminate. apply lookup_fmap. }
  rewrite parseNumber_lookup_ne by exact Hh.
  destruct (decide (key = "width")) as [-> | Hw].
  { rewrite parseNumber_lookup_eq.
    - destruct (raw !! "width") as [v |]; [| reflexivity]. cbn.
      rewrite andb_true_r. reflexivity.
    - apply lookup_fmap. }
  rewrite parseNumber_lookup_ne by exact Hw.
  rewrite lookup_fmap.
  rewrite (bool_decide_eq_false_2 (key ∈ _)).
  2:{ rewrite !not_elem_of_cons. repeat split; try assumption.
      apply not_elem_of_nil. }
  destruct (raw !! key) as [v |]; [| reflexivity]. cbn.
  rewrite andb_false_r. reflexivity.
Qed.

End CliFacts.

Lemma trailing_option_step (opt : string) args positional :
  startsWithDash opt = true -> ~ isFlagArg opt ->
  (parseStep opt None args positional).1
  = (setProp (optionKey opt) Flag args, positional).
Proof.
  intros Hd Hf. unfold parseStep, isFlagArg in *.
  destruct (String.eqb_spec opt "--help"); [tauto |].
  destruct (String.eqb_spec opt "-h"); [tauto |].
  destruct (String.eqb_spec opt "--full-page"); [tauto |].
  destruct (String.eqb_spec opt "--multi-step"); [tauto |].
  rewrite Hd. cbn [orb truthy]. rewrite andb_false_r. reflexivity.
Qed.

Lemma dashed_next_not_taken (arg opt : string) args positional :
  startsWithDash opt = true -> arg <> "-o" ->
  (parseStep arg (Some opt) args positional).2 = false.
Proof.
  intros Hd Ho. unfold parseStep.
  destruct (String.eqb_spec arg "-o"); [contradiction |].
  change (default EmptyString (Some opt)) with opt.
  rewrite Hd. cbn [andb negb]. rewrite andb_false_r.
  repeat match goal with
         | |- context [if ?b then _ else _] => destruct b
         end; reflexivity.
Qed.

Lemma parseLoop_trailing_option (opt : string) :
  startsWithDash opt = true -> ~ isFlagArg opt ->
  forall argv args positional,
    last argv <> Some "-o" ->
    exists args' positional',
      parseLoop (argv ++ [opt]) args positional
      = (setProp (optionKey opt) Flag args', positional').
Proof.
  intros Hd Hf argv.
  assert (H : forall n argv, length argv <= n ->
              forall args positional,
                last argv <> Some "-o" ->
                exists args' positional',
                  parseLoop (argv ++ [opt]) args positional
                  = (setProp (optionKey opt) Flag args', positional')).
  { clear argv. induction n as [| n IH]; intros argv Hlen args positional Hl.
    - destruct argv; [| cbn in Hlen; lia]. cbn [app].
      rewrite parseLoop_last, trailing_option_step by assumption. eauto.
    - destruct argv as [| arg [| next rest]].
      + cbn [app].
        rewrite parseLoop_last, trailing_option_step by assumption. eauto.
      + cbn [app]. rewrite parseLoop_cons.
        rewrite dashed_next_not_taken by (cbn in Hl; congruence || assumption).
        rewrite parseLoop_last, trailing_option_step by assumption. eauto.
      + cbn [app]. rewrite parseLoop_cons. cbn [length] in Hlen.
        destruct (parseStep arg (Some next) args positional).2.
        * apply IH; [lia |]. destruct rest; [discriminate | exact Hl].
        * apply (IH (next :: rest)); [cbn [length]; lia | exact Hl]. }
  intros args positional. apply (H (length argv)). lia.
Qed.

(** A property that every turn of the loop keeps, the turn being given
    where it stands in [argv], holds when the loop ends. *)
Lemma parseLoop_invariant_at (argv : list string)
    (I : gmap string RawValue -> list string -> Prop) :
  (forall i arg args positional,
      argv !! i = Some arg ->
      I args positional ->
      I (parseStep arg (argv !! S i) args positional).1.1
        (parseStep arg (argv !! S i) args positional).1.2) ->
  forall args positional,
    I args positional ->
    I (parseLoop argv args positional).1 (parseLoop argv args positional).2.
Proof.
  intros Hstep.
  assert (H : forall n k, length (drop k argv) <= n ->
              forall args positional,
                I args positional ->
                I (parseLoop (drop k argv) args positional).1
                  (parseLoop (drop k argv) args positional).2).
  { induction n as [| n IH]; intros k Hlen args positional HI.
    - destruct (drop k argv); [exact HI | cbn in Hlen; lia].
    - destruct (drop k argv) as [| arg rest] eqn:E; [exact HI |].
      assert (Hk : argv !! k = Some arg).
      { rewrite <- (Nat.add_0_r k), <- lookup_drop, E. reflexivity. }
      assert (Hn : argv !! S k = rest !! 0).
      { replace (S k) with (k + 1) by lia. rewrite <- lookup_drop, E.
        reflexivity. }
      assert (Hrest : drop (S k) argv = rest).
      { rewrite (drop_S _ _ _ Hk) in E. congruence. }
      specialize (Hstep k arg args positional Hk HI). rewrite Hn in Hstep.
      destruct rest as [| next rest'].
      + rewrite parseLoop_last. exact Hstep.
      + rewrite parseLoop_cons. cbn [lookup list_lookup] in Hstep.
        cbn [length] in Hlen.
        destruct (parseStep arg (Some next) args positional).2.
        * assert (Hrest' : drop (S (S k)) argv = rest').
          { assert (Hk' : argv !! S k = Some next) by (rewrite Hn; reflexivity).
            rewrite (drop_S _ _ _ Hk') in Hrest. congruence. }
          rewrite <- Hrest'. apply IH; [rewrite Hrest'; lia | exact Hstep].
        * rewrite <- Hrest. apply IH; [rewrite Hrest; cbn [length]; lia |].
          exact Hstep. }
  intros args positional. apply (H (length argv) 0). rewrite drop_0. lia.
Qed.

Lemma cameFrom_insert argv key v (args : gmap string RawValue) :
  (forall k r, args !! k = Some r -> cameFrom argv k r) ->
  cameFrom argv key v ->
  forall k r, <[key := v]> args !! k = Some r -> cameFrom argv k r.
Proof.
  intros Ha Hv k r. rewrite lookup_insert_Some.
  intros [[<- <-] | [_ E]]; [exact Hv | exact (Ha _ _ E)].
Qed.

Lemma cameFrom_setProp argv key v (args : gmap string RawValue) :
  (forall k r, args !! k = Some r -> cameFrom argv k r) ->
  cameFrom argv key v ->
  forall k r, setProp key v args !! k = Some r -> cameFrom argv k r.
Proof.
  intros Ha Hv. unfold setProp.
  destruct (String.eqb key "__proto__"); [exact Ha |].
  apply cameFrom_insert; assumption.
Qed.

Lemma parseStep_cameFrom argv i arg args positional :
  argv !! i = Some arg ->
  (forall k r, args !! k = Some r -> cameFrom argv k r) ->
  forall k r,
    (parseStep arg (argv !! S i) args positional).1.1 !! k = Some r ->
    cameFrom argv k r.
Proof.
  intros Hi Ha. unfold parseStep.
  destruct (String.eqb arg "--help" || String.eqb arg "-h") eqn:Eh.
  { apply cameFrom_insert; [exact Ha |]. exists i, arg.
    split; [exact Hi |].
    apply orb_true_iff in Eh as [Eh | Eh]; apply String.eqb_eq in Eh; subst;
      (split; [reflexivity |]); left;
      (split; [unfold isFlagArg; auto |]);
      apply elem_of_cons; left; reflexivity. }
  destruct (String.eqb arg "-o" && truthy (argv !! S i)) eqn:Eo.
  { apply andb_true_iff in Eo as [Eo Et]. apply String.eqb_eq in Eo. subst.
    destruct (truthy_Some_default _ Et) as [Hne Hs].
    apply cameFrom_insert; [exact Ha |]. exists i, "-o".
    split; [exact Hi |]. split; [reflexivity |].
    split; [exact Hs |]. split; [exact Hne |]. left. auto. }
  destruct (String.eqb arg "--full-page") eqn:Ef.
  { apply String.eqb_eq in Ef. subst.
    apply cameFrom_insert; [exact Ha |]. exists i, "--full-page".
    split; [exact Hi |]. split; [reflexivity |]. left.
    split; [unfold isFlagArg; auto |].
    apply elem_of_cons; right; apply elem_of_cons; left; reflexivity. }
  destruct (String.eqb arg "--multi-step") eqn:Em.
  { apply String.eqb_eq in Em. subst.
    apply cameFrom_insert; [exact Ha |]. exists i, "--multi-step".
    split; [exact Hi |]. split; [reflexivity |]. left.
    split; [unfold isFlagArg; auto |].
    do 2 (apply elem_of_cons; right). apply elem_of_cons; left; reflexivity. }
  destruct (startsWithDash arg) eqn:Ed; cbn zeta; [| exact Ha].
  destruct (truthy (argv !! S i)
            && negb (startsWithDash (default EmptyString (argv !! S i))))
    eqn:Ev; cbn [fst snd].
  - apply andb_true_iff in Ev as [Et Hnd]. apply negb_true_iff in Hnd.
    destruct (truthy_Some_default _ Et) as [Hne Hs].
    apply cameFrom_setProp; [exact Ha |]. exists i, arg.
    split; [exact Hi |]. split; [exact Ed |].
    split; [exact Hs |]. split; [exact Hne |]. right. auto.
  - apply cameFrom_setProp; [exact Ha |]. exists i, arg.
    split; [exact Hi |]. split; [exact Ed |]. right. auto.
Qed.

(** Every value the loop stores can be traced to its place in [argv]. *)
Lemma parseLoop_cameFrom (argv : list string) :
  forall k r, (parseLoop argv ∅ []).1 !! k = Some r -> cameFrom argv k r.
Proof.
  apply (parseLoop_invariant_at argv
           (fun args _ => forall k r, args !! k = Some r -> cameFrom argv k r)).
  - intros i arg args positional Hi Ha.
    exact (parseStep_cameFrom argv i arg args positional Hi Ha).
  - intros k r. rewrite lookup_empty. discriminate.
Qed.

Lemma valued_option_step (opt value : string) args positional :
  startsWithDash opt = true -> ~ isFlagArg opt -> opt <> "-o" ->
  value <> EmptyString -> startsWithDash value = false ->
  parseStep opt (Some value) args positional
  = (setProp (optionKey opt) (Text value) args, positional, true).
Proof.
  intros Hd Hf Ho Hne Hv. unfold parseStep, isFlagArg in *.
  destruct (String.eqb_spec opt "--help"); [tauto |].
  destruct (String.eqb_spec opt "-h"); [tauto |].
  destruct (String.eqb_spec opt "-o"); [contradiction |].
  destruct (String.eqb_spec opt "--full-page"); [tauto |].
  destruct (String.eqb_spec opt "--multi-step"); [tauto |].
  change (default EmptyString (Some value)) with value.
  rewrite Hd, Hv. destruct value as [| a value]; [contradiction |].
  reflexivity.
Qed.

Lemma parseLoop_trailing_pair (opt value : string) :
  startsWithDash opt = true -> ~ isFlagArg opt -> opt <> "-o" ->
  value <> EmptyString -> startsWithDash value = false ->
  forall argv args positional,
    last argv <> Some "-o" ->
    exists args' positional',
      parseLoop (argv ++ [opt; value]) args positional
      = (setProp (optionKey opt) (Text value) args', positional').
Proof.
  intros Hd Hf Ho Hne Hv argv.
  assert (Hend : forall args positional,
             parseLoop [opt; value] args positional
             = (setProp (optionKey opt) (Text value) args, positional)).
  { intros args positional.
    rewrite parseLoop_cons, valued_option_step by assumption. reflexivity. }
  assert (H : forall n argv, length argv <= n ->
              forall args positional,
                last argv <> Some "-o" ->
                exists args' positional',
                  parseLoop (argv ++ [opt; value]) args positional
                  = (setProp (optionKey opt) (Text value) args', positional')).
  { clear argv. induction n as [| n IH]; intros argv Hlen args positional Hl.
    - destruct argv; [| cbn in Hlen; lia]. cbn [app]. rewrite Hend. eauto.
    - destruct argv as [| arg [| next rest]].
      + cbn [app]. rewrite Hend. eauto.
      + cbn [app]. rewrite parseLoop_cons.
        rewrite dashed_next_not_taken by (cbn in Hl; congruence || assumption).
        rewrite Hend. eauto.
      + cbn [app]. rewrite parseLoop_cons. cbn [length] in Hlen.
        destruct (parseStep arg (Some next) args positional).2.
        * apply IH; [lia |]. destruct rest; [discriminate | exact Hl].
        * apply (IH (next :: rest)); [cbn [length]; lia | exact Hl]. }
  intros args positional. apply (H (length argv)). lia.
Qed.

Lemma kebab_is_option (w : string) (ws : list string) :
  lowerWord w ->
  startsWithDash (kebab w ws) = true /\ kebab w ws <> "-o" /\
  w +:+ joinWords (map capitalize ws) <> "__proto__".
Proof.
  intros [Hne Hw]. destruct w as [| c w]; [contradiction |].
  cbn [list_ascii_of_string] in Hw. inversion Hw as [| ? ? Hc _]; subst.
  split; [reflexivity |]. split; [discriminate |].
  rewrite append_cons. intros [= -> _]. discriminate Hc.
Qed.

Section CliProperties.
Context {Number : Type}.
Variable parseInt : string -> Number.

(** A string that starts with a dash is never taken as the value of an
    option or as the URL; only [-o] accepts one, as the output path. *)
Theorem dashed_value_only_for_output (argv : list string) (key s : string) :
  parseArgs parseInt argv !! key = Some (AStr s) ->
  key <> "output" ->
  startsWithDash s = false.
Proof.
  rewrite parseArgs_lookup. destruct (parseLoop_wellStored argv) as [Ha Hp].
  destruct (parseLoop argv ∅ []) as [args positional]. cbn [fst snd] in *.
  intros H Hk.
  assert (Hraw : match positional with
                 | url :: _ => <["url" := Text url]> args
                 | [] => args
                 end !! key = Some (Text s)).
  { destruct (_ !! key) as [[t |] |]; cbn in H.
    - destruct (_ && _); [discriminate | congruence].
    - destruct (bool_decide _); discriminate.
    - discriminate. }
  destruct (startsWithDash s) eqn:Ed; [exfalso | reflexivity].
  destruct positional as [| url rest].
  - destruct (Ha _ _ Hraw) as [_ Ho]. auto.
  - apply lookup_insert_Some in Hraw as [[_ [= ->]] | [_ Hraw]].
    + inversion Hp; congruence.
    + destruct (Ha _ _ Hraw) as [_ Ho]. auto.
Qed.

(** Whatever is returned under width, height, timeout or delay is a number
    read off [argv]: there is an option of that key in [argv], and the
    value is [parseInt] of the non-empty, dash-free argument right after
    it, or [parseInt] of ["true"] when no such argument follows it. *)
Theorem numeric_options_are_numbers (argv : list string) (key : string)
    (v : ArgValue Number) :
  key ∈ numericKeys ->
  parseArgs parseInt argv !! key = Some v ->
  exists i opt,
    argv !! i = Some opt /\ startsWithDash opt = true /\
    optionKey opt = key /\
    ((exists s,
         argv !! S i = Some s /\ s <> EmptyString /\
         startsWithDash s = false /\ v = ANum (parseInt s)) \/
     (truthy (argv !! S i)
      && negb (startsWithDash (default EmptyString (argv !! S i))) = false /\
      v = ANum (parseInt "true"))).
Proof.
  intros Hk. rewrite parseArgs_lookup.
  pose proof (parseLoop_cameFrom argv) as Hfrom.
  destruct (parseLoop argv ∅ []) as [args positional]. cbn [fst snd] in *.
  assert (Hkeys : key <> "url" /\ key <> "output" /\
                  key ∉ ["help"; "fullPage"; "multiStep"]).
  { unfold numericKeys in Hk. rewrite !elem_of_cons in Hk.
    rewrite !not_elem_of_cons.
    destruct Hk as [-> | [-> | [-> | [-> | Hk]]]];
      [| | | | apply elem_of_nil in Hk; destruct Hk];
      repeat split; try discriminate; apply not_elem_of_nil. }
  destruct Hkeys as (Hurl & Hout & Hflag).
  assert (Hraw : match positional with
                 | url :: _ => <["url" := Text url]> args
                 | [] => args
                 end !! key = args !! key).
  { destruct positional; [reflexivity |]. apply lookup_insert_ne. congruence. }
  rewrite Hraw, (bool_decide_eq_true_2 _ Hk).
  destruct (args !! key) as [r |] eqn:E; cbn; [| discriminate].
  destruct (Hfrom _ _ E) as (i & opt & Hi & Hd & Hv).
  destruct r as [s |].
  - destruct Hv as (Hs & Hne & [[_ Ho] | [Hkey Hsd]]); [contradiction |].
    destruct s as [| a s]; [contradiction |]. cbn.
    intros [= <-]. exists i, opt.
    split; [exact Hi |]. split; [exact Hd |]. split; [exact Hkey |].
    left. exists (String a s). auto.
  - destruct Hv as [[_ Hf] | [Hkey Hn]]; [contradiction |]. cbn.
    intros [= <-]. exists i, opt.
    split; [exact Hi |]. split; [exact Hd |]. split; [exact Hkey |].
    right. auto.
Qed.

(** The first argument that is not an option is the URL, whatever follows
    it, a later [--url] included: flags before it take no value. *)
Theorem first_positional_is_url (flags : list string) (url : string)
    (rest : list string) :
  Forall isFlagArg flags ->
  startsWithDash url = false ->
  parseArgs parseInt (flags ++ url :: rest) !! "url" = Some (AStr url).
Proof.
  intros Hf Hu. rewrite parseArgs_lookup.
  destruct (parseLoop_flags flags url rest ∅ Hf) as [args' ->].
  assert (exists more, (parseLoop (url :: rest) args' []).2 = url :: more)
    as [more ->].
  { destruct rest as [| next rest].
    - rewrite parseLoop_last, not_dash_not_option by exact Hu. cbn. eauto.
    - rewrite parseLoop_cons, not_dash_not_option by exact Hu.
      cbn [fst snd]. apply (parseLoop_positional (next :: rest) args' [url]). }
  assert (E : bool_decide ("url" ∈ numericKeys) = false).
  { apply bool_decide_eq_false_2. unfold numericKeys.
    rewrite !not_elem_of_cons. repeat split; try discriminate.
    apply not_elem_of_nil. }
  rewrite lookup_insert_eq. cbn. rewrite E, andb_false_r. reflexivity.
Qed.

(** An option that comes last, with no value after it, is stored as
    [true]: a missing value is not an error. *)
Theorem trailing_option_is_true (argv : list string) (opt : string) :
  startsWithDash opt = true -> ~ isFlagArg opt ->
  last argv <> Some "-o" ->
  optionKey opt ∉ "__proto__" :: "url" :: numericKeys ->
  parseArgs parseInt (argv ++ [opt]) !! optionKey opt = Some ATrue.
Proof.
  intros Hd Hf Hl Hk. rewrite parseArgs_lookup.
  destruct (parseLoop_trailing_option opt Hd Hf argv ∅ [] Hl)
    as (args' & positional' & ->). cbn [fst snd].
  rewrite !not_elem_of_cons in Hk. destruct Hk as (Hp & Hu & Hn).
  assert (Hraw : match positional' with
                 | url :: _ =>
                     <["url" := Text url]> (setProp (optionKey opt) Flag args')
                 | [] => setProp (optionKey opt) Flag args'
                 end !! optionKey opt = Some Flag).
  { assert (setProp (optionKey opt) Flag args' !! optionKey opt = Some Flag)
      as E.
    { unfold setProp. destruct (String.eqb_spec (optionKey opt) "__proto__");
        [contradiction | apply lookup_insert_eq]. }
    destruct positional'; [exact E |].
    rewrite lookup_insert_ne by congruence. exact E. }
  rewrite Hraw. cbn.
  rewrite (bool_decide_eq_false_2 _ Hn). reflexivity.
Qed.

(** An option written in kebab case (two dashes, lower-case words joined
    by dashes) that comes last with its value is returned under the
    camel-case key, the first word followed by the other words with their
    first letter in upper case, whatever came before: the value itself,
    or [parseInt] of it under a numeric key. *)
Theorem kebab_option_stored (argv : list string) (w : string)
    (ws : list string) (value : string) :
  lowerWord w -> Forall lowerWord ws ->
  ~ isFlagArg (kebab w ws) ->
  last argv <> Some "-o" ->
  value <> EmptyString -> startsWithDash value = false ->
  w +:+ joinWords (map capitalize ws) <> "url" ->
  parseArgs parseInt (argv ++ [kebab w ws; value])
  !! (w +:+ joinWords (map capitalize ws))
  = Some (if bool_decide (w +:+ joinWords (map capitalize ws) ∈ numericKeys)
          then ANum (parseInt value)
          else AStr value).
Proof.
  intros Hw Hws Hf Hl Hne Hv Hu.
  destruct (kebab_is_option w ws Hw) as (Hd & Ho & Hp).
  rewrite parseArgs_lookup.
  destruct (parseLoop_trailing_pair (kebab w ws) value Hd Hf Ho Hne Hv
              argv ∅ [] Hl) as (args' & positional' & ->).
  cbn [fst snd]. rewrite (optionKey_kebab w ws Hw Hws).
  set (key := w +:+ joinWords (map capitalize ws)) in *.
  assert (Hraw : match positional' with
                 | url :: _ => <["url" := Text url]> (setProp key (Text value) args')
                 | [] => setProp key (Text value) args'
                 end !! key = Some (Text value)).
  { assert (setProp key (Text value) args' !! key = Some (Text value)) as E.
    { unfold setProp. destruct (String.eqb_spec key "__proto__");
        [contradiction | apply lookup_insert_eq]. }
    destruct positional'; [exact E |].
    rewrite lookup_insert_ne by congruence. exact E. }
  rewrite Hraw. cbn. destruct value as [| a value]; [contradiction |].
  reflexivity.
Qed.

End CliProperties.

Lemma dashed_value_only_for_output_email :
  startsWithDash "user@app.test" = false.
Proof.
  apply (dashed_value_only_for_output parseDecimal
           ["--email"; "user@app.test"; "https://app.test"] "email");
    [reflexivity | discriminate].
Defined.

Lemma numeric_options_are_numbers_width :
  exists i opt,
    ["https://app.test"; "--width"; "800"] !! i = Some opt /\
    startsWithDash opt = true /\
    optionKey opt = "width" /\
    ((exists s,
         ["https://app.test"; "--width"; "800"] !! S i = Some s /\
         s <> EmptyString /\ startsWithDash s = false /\
         ANum (Some 800%Z) = ANum (parseDecimal s)) \/
     (truthy (["https://app.test"; "--width"; "800"] !! S i)
      && negb (startsWithDash
                 (default EmptyString
                    (["https://app.test"; "--width"; "800"] !! S i)))
      = false /\
      ANum (Some 800%Z) = ANum (parseDecimal "true"))).
Proof.
  apply (numeric_options_are_numbers parseDecimal
           ["https://app.test"; "--width"; "800"] "width");
    [| reflexivity].
  unfold numericKeys. apply elem_of_cons. left. reflexivity.
Defined.

Lemma first_positional_is_url_after_flag :
  parseArgs parseDecimal
    ["--full-page"; "https://app.test"; "--url"; "https://other.test"]
  !! "url"
  = Some (AStr "https://app.test").
Proof.
  apply (first_positional_is_url parseDecimal ["--full-page"]
           "https://app.test" ["--url"; "https://other.test"]);
    [| reflexivity].
  constructor; [| constructor]. right. right. left. reflexivity.
Defined.

Lemma trailing_option_is_true_password :
  parseArgs parseDecimal
    ["https://app.test"; "--login-url"; "https://app.test/login";
     "--password"]
  !! "password"
  = Some ATrue.
Proof.
  apply (trailing_option_is_true parseDecimal
           ["https://app.test"; "--login-url"; "https://app.test/login"]
           "--password").
  - reflexivity.
  - intros [H | [H | [H | H]]]; discriminate H.
  - discriminate.
  - unfold numericKeys. rewrite !not_elem_of_cons.
    repeat split; try discriminate. apply not_elem_of_nil.
Defined.

Lemma kebab_option_stored_success_url_pattern :
  parseArgs parseDecimal
    ["https://app.test"; "-o"; "shot.png"; "--success-url-pattern"; "/home"]
  !! "successUrlPattern"
  = Some (AStr "/home").
Proof.
  apply (kebab_option_stored parseDecimal
           ["https://app.test"; "-o"; "shot.png"] "success" ["url"; "pattern"]
           "/home").
  - split; [discriminate | repeat constructor].
  - repeat constructor; discriminate.
  - intros [H | [H | [H | H]]]; discriminate H.
  - discriminate.
  - discriminate.
  - reflexivity.
  - discriminate.
Defined.
